(** * Tablero de anuncios: the zoom gestures and the image pipeline of [App.tsx]

    A shallow embedding of the two parts of the application that carry
    behaviour: the touch handlers that drive the zoom of the image modal
    ([handleDoubleTap], [handleTouchStart], [handleTouchMove],
    [handleTouchEnd]) and the image life cycle ([compressImage],
    [uploadImage], [deleteImage], [fetchImagesByCategory] of [lib/images.ts]
    and the handlers of [App] that call them: [load], [handleFileChange],
    [handleDeleteImage]).

    Numbers.  JavaScript numbers are IEEE 754 binary64 values, and so are
    Rocq's primitive floats: [scale], the touch coordinates and everything
    computed from them are of type [float], and the arithmetic and the
    comparisons of the handlers are the primitive ones, NaN and the
    infinities included.  Universal statements about them go through the
    specification of the primitives in [FloatAxioms]; where a bound on a
    rounding error is needed, the values are taken as real numbers.  Time
    stamps ([Date.now()]) are integers and are kept in [Z]; so are the
    dimensions of an image and of a canvas ([unsigned long] in the DOM),
    which [compressImage] reads as numbers and computes on as such.

    State.  A handler is a function from the state it sees to the state it
    leaves.  The browser and the Supabase client are an interface
    ([Collaborators]) over a state of their own; every call to them, and
    every message given to [setError], is appended to a log.  An
    asynchronous handler runs from its start to its end against that world:
    what other events do between its [await]s is not part of the model. *)

From Stdlib Require Import Rbase Rfunctions Lra.
From Stdlib Require Import ZArith List String DecimalString Bool Lia Floats.
Import ListNotations.

(** ** JavaScript's [Math] functions on numbers *)

Definition is_pos_zero (f : float) : bool :=
  match classify f with PZero => true | _ => false end.

Definition is_neg_zero (f : float) : bool :=
  match classify f with NZero => true | _ => false end.

(** [Math.max(a, b)]: NaN if either argument is NaN, [+0] above [-0],
    otherwise the larger argument. *)
Definition Math_max (a b : float) : float :=
  if is_nan a || is_nan b then nan
  else if (a <? b)%float || (is_pos_zero b && is_neg_zero a) then b
  else a.

(** [Math.min(a, b)]: NaN if either argument is NaN, [-0] below [+0],
    otherwise the smaller argument. *)
Definition Math_min (a b : float) : float :=
  if is_nan a || is_nan b then nan
  else if (b <? a)%float || (is_neg_zero b && is_pos_zero a) then b
  else a.

(** [Math.hypot(dx, dy)].  ECMAScript leaves the precision of the result to
    the implementation; the model is the textbook formula, each operation
    rounded to binary64.  Its result is never negative, and NaN only when
    [dx] or [dy] is. *)
Definition Math_hypot (dx dy : float) : float :=
  sqrt (dx * dx + dy * dy)%float.

(** ** The zoom state of [App] *)

Module Point.
Record t : Set := mk { x : float; y : float }.
End Point.

Definition origin : Point.t := {| Point.x := 0; Point.y := 0 |}.

(** One entry of [e.touches]. *)
Record Touch : Set := mkTouch { clientX : float; clientY : float }.

(** The two pieces of React state ([scale], [position]) and the six refs of
    the ZOOM STATE block. *)
Record ZoomState : Set := mkZoom {
  scale : float;
  position : Point.t;
  lastTapRef : Z;
  pinchStartDistRef : float;
  pinchStartScaleRef : float;
  panStartRef : Point.t;
  posStartRef : Point.t;
  isPanningRef : bool
}.

(** The values given to [useState] and [useRef]. *)
Definition zoomInit : ZoomState :=
  {| scale := 1; position := origin; lastTapRef := 0;
     pinchStartDistRef := 0; pinchStartScaleRef := 1;
     panStartRef := origin; posStartRef := origin; isPanningRef := false |}.

Definition setScale (s : float) (st : ZoomState) : ZoomState :=
  {| scale := s; position := position st; lastTapRef := lastTapRef st;
     pinchStartDistRef := pinchStartDistRef st;
     pinchStartScaleRef := pinchStartScaleRef st;
     panStartRef := panStartRef st; posStartRef := posStartRef st;
     isPanningRef := isPanningRef st |}.

Definition setPosition (p : Point.t) (st : ZoomState) : ZoomState :=
  {| scale := scale st; position := p; lastTapRef := lastTapRef st;
     pinchStartDistRef := pinchStartDistRef st;
     pinchStartScaleRef := pinchStartScaleRef st;
     panStartRef := panStartRef st; posStartRef := posStartRef st;
     isPanningRef := isPanningRef st |}.

Definition setLastTap (now : Z) (st : ZoomState) : ZoomState :=
  {| scale := scale st; position := position st; lastTapRef := now;
     pinchStartDistRef := pinchStartDistRef st;
     pinchStartScaleRef := pinchStartScaleRef st;
     panStartRef := panStartRef st; posStartRef := posStartRef st;
     isPanningRef := isPanningRef st |}.

Definition setPinchStart (dist s : float) (st : ZoomState) : ZoomState :=
  {| scale := scale st; position := position st; lastTapRef := lastTapRef st;
     pinchStartDistRef := dist; pinchStartScaleRef := s;
     panStartRef := panStartRef st; posStartRef := posStartRef st;
     isPanningRef := isPanningRef st |}.

Definition setPanStart (pan pos : Point.t) (st : ZoomState) : ZoomState :=
  {| scale := scale st; position := position st; lastTapRef := lastTapRef st;
     pinchStartDistRef := pinchStartDistRef st;
     pinchStartScaleRef := pinchStartScaleRef st;
     panStartRef := pan; posStartRef := pos; isPanningRef := true |}.

Definition setIsPanning (b : bool) (st : ZoomState) : ZoomState :=
  {| scale := scale st; position := position st; lastTapRef := lastTapRef st;
     pinchStartDistRef := pinchStartDistRef st;
     pinchStartScaleRef := pinchStartScaleRef st;
     panStartRef := panStartRef st; posStartRef := posStartRef st;
     isPanningRef := b |}.

(** ** The zoom handlers

    Every handler is a function from the state it sees to the state it
    leaves: the component is rendered again between two events, so each
    handler reads the [scale] and [position] the previous one published. *)

Definition resetZoom (st : ZoomState) : ZoomState :=
  setPosition origin (setScale 1 st).

Definition DOUBLE_TAP_DELAY : Z := 300.

(** [handleDoubleTap], with [now] the value of [Date.now()]. *)
Definition handleDoubleTap (now : Z) (st : ZoomState) : ZoomState :=
  let st1 :=
    if (now - lastTapRef st <? DOUBLE_TAP_DELAY)%Z then
      if (1 <? scale st)%float then resetZoom st
      else setPosition origin (setScale 2.5 st)
    else st in
  setLastTap now st1.

(** The distance between the first two touches, as both [handleTouchStart]
    and [handleTouchMove] compute it. *)
Definition touchDist (t0 t1 : Touch) : float :=
  let dx := (clientX t0 - clientX t1)%float in
  let dy := (clientY t0 - clientY t1)%float in
  Math_hypot dx dy.

Definition handleTouchStart (touches : list Touch) (st : ZoomState) : ZoomState :=
  match touches with
  | [t0; t1] => setPinchStart (touchDist t0 t1) (scale st) st
  | [t0] =>
      if (1 <? scale st)%float then
        setPanStart {| Point.x := clientX t0; Point.y := clientY t0 |} (position st) st
      else st
  | _ => st
  end.

(** The scale a pinch move computes from the two refs and the distance. *)
Definition pinchScale (st : ZoomState) (dist : float) : float :=
  Math_min 5 (Math_max 1 (pinchStartScaleRef st * (dist / pinchStartDistRef st))%float).

Definition handleTouchMove (touches : list Touch) (st : ZoomState) : ZoomState :=
  match touches with
  | [t0; t1] =>
      let dist := touchDist t0 t1 in
      let newScale := pinchScale st dist in
      let st1 := setScale newScale st in
      if (newScale <=? 1)%float then setPosition origin st1 else st1
  | [t0] =>
      if isPanningRef st && (1 <? scale st)%float then
        let dx := (clientX t0 - Point.x (panStartRef st))%float in
        let dy := (clientY t0 - Point.y (panStartRef st))%float in
        setPosition {| Point.x := (Point.x (posStartRef st) + dx)%float;
                       Point.y := (Point.y (posStartRef st) + dy)%float |} st
      else st
  | _ => st
  end.

Definition handleTouchEnd (st : ZoomState) : ZoomState :=
  let st1 := setIsPanning false st in
  if (scale st <=? 1)%float then resetZoom st1 else st1.

(** ** The image dimensions of [compressImage]

    [img.width] and [img.height] are integers below [2^32] ([unsigned long]);
    as numbers they are exact.  [compressImage] compares and scales them as
    numbers, every operation rounded to binary64, and gives the results to
    [canvas.width] and [canvas.height], which are [unsigned long] again. *)

(** The number that an integer is (the nearest one, beyond 53 bits). *)
Definition Z2float (n : Z) : float := SF2Prim (binary_normalize prec emax n 0 false).

(** [Math.round(x)]: the integer nearest to [x], a tie going up, that is the
    floor of [x + 1/2] taken exactly; [-0] for [-0.5 <= x < 0]; [x] itself
    when it is an integer already, an infinity or NaN.  A finite [x] is
    [m * 2^e] up to its sign, and is an integer when [e] is not negative. *)
Definition Math_round (x : float) : float :=
  match Prim2SF x with
  | S754_finite s m (Zneg k) =>
      let v := if s then Zneg m else Zpos m in
      let n := ((2 * v + 2 ^ Zpos k) / 2 ^ (Zpos k + 1))%Z in
      if s then (- Z2float (- n))%float else Z2float n
  | _ => x
  end.

(** The conversion of a number to [unsigned long], as on an assignment to
    [canvas.width]: 0 for NaN and the infinities, otherwise the number without
    its fraction, modulo [2^32].  (A canvas takes no value above [2^31 - 1];
    [compressImage] gives it none above the sides of the image.) *)
Definition toUnsignedLong (x : float) : Z :=
  match Prim2SF x with
  | S754_finite s m e =>
      let t := match e with
               | Zneg k => Z.quot (Zpos m) (2 ^ Zpos k)
               | _ => (Zpos m * 2 ^ e)%Z
               end in
      ((if s then - t else t) mod 2 ^ 32)%Z
  | _ => 0%Z
  end.

Definition MAX_SIZE : float := 1200.
(** [0.8], that is the binary64 value nearest to it. *)
Definition QUALITY : float := 0x1.999999999999ap-1%float.

(** [let { width, height } = img] and the [if] that follows it. *)
Definition scaleToMax (width height : float) : float * float :=
  if (MAX_SIZE <? width)%float || (MAX_SIZE <? height)%float then
    if (height <? width)%float then
      (MAX_SIZE, Math_round (height * (MAX_SIZE / width)))
    else
      (Math_round (width * (MAX_SIZE / height)), MAX_SIZE)
  else (width, height).

(** The body of [img.onload] up to [canvas.width = width] and
    [canvas.height = height]: the size of the canvas for an image of that
    size. *)
Definition canvasSize (width height : Z) : Z * Z :=
  let (width', height') := scaleToMax (Z2float width) (Z2float height) in
  (toUnsignedLong width', toUnsignedLong height').

(** ** Image records, categories and the state of [App] *)

Local Open Scope string_scope.

Module ImageRecord.
Record t : Set := mk {
  id : string;
  category : string;
  storage_path : string;
  url : string;
  created_at : string
}.
End ImageRecord.

Module CategoryData.
Record t : Set := mk {
  id : string;
  name : string;
  icon : string;
  color : string;
  gradient : string;
  images : list ImageRecord.t
}.

(** [{ ...cat, images }] *)
Definition with_images (imgs : list ImageRecord.t) (cat : t) : t :=
  {| id := id cat; name := name cat; icon := icon cat; color := color cat;
     gradient := gradient cat; images := imgs |}.
End CategoryData.

Definition CATEGORIES : list CategoryData.t :=
  [ {| CategoryData.id := "campo";
       CategoryData.name := "Servicio del Campo";
       CategoryData.icon := "🌾";
       CategoryData.color := "#00b894";
       CategoryData.gradient := "linear-gradient(135deg, #00b894, #00cec9)";
       CategoryData.images := [] |};
    {| CategoryData.id := "anuncios";
       CategoryData.name := "Anuncios del Mes";
       CategoryData.icon := "📢";
       CategoryData.color := "#e17055";
       CategoryData.gradient := "linear-gradient(135deg, #e17055, #fdcb6e)";
       CategoryData.images := [] |};
    {| CategoryData.id := "reuniones";
       CategoryData.name := "Reuniones";
       CategoryData.icon := "🤝";
       CategoryData.color := "#6c5ce7";
       CategoryData.gradient := "linear-gradient(135deg, #6c5ce7, #a29bfe)";
       CategoryData.images := [] |};
    {| CategoryData.id := "limpieza";
       CategoryData.name := "Limpieza";
       CategoryData.icon := "🧹";
       CategoryData.color := "#0984e3";
       CategoryData.gradient := "linear-gradient(135deg, #0984e3, #74b9ff)";
       CategoryData.images := [] |} ].

(** The state of [App] that the image handlers read and write. *)
Record AppState : Set := mkApp {
  categories : list CategoryData.t;
  activeCategory : option string;
  isLoading : bool;
  isUploading : bool;
  error : option string
}.

Definition appInit : AppState :=
  {| categories := CATEGORIES; activeCategory := None; isLoading := true;
     isUploading := false; error := None |}.

Definition setCategories (f : list CategoryData.t -> list CategoryData.t)
    (st : AppState) : AppState :=
  {| categories := f (categories st); activeCategory := activeCategory st;
     isLoading := isLoading st; isUploading := isUploading st; error := error st |}.

Definition setIsLoading (b : bool) (st : AppState) : AppState :=
  {| categories := categories st; activeCategory := activeCategory st;
     isLoading := b; isUploading := isUploading st; error := error st |}.

Definition setIsUploading (b : bool) (st : AppState) : AppState :=
  {| categories := categories st; activeCategory := activeCategory st;
     isLoading := isLoading st; isUploading := b; error := error st |}.

Definition setError (e : option string) (st : AppState) : AppState :=
  {| categories := categories st; activeCategory := activeCategory st;
     isLoading := isLoading st; isUploading := isUploading st; error := e |}.

Definition setActiveCategory (c : option string) (st : AppState) : AppState :=
  {| categories := categories st; activeCategory := c;
     isLoading := isLoading st; isUploading := isUploading st; error := error st |}.

(** ** Thrown values, files and the collaborators *)

(** What a rejected promise or a [throw] carries: an [Error] with its
    message, or a value that is not an [Error]. *)
Inductive thrown : Set :=
  | JsError (message : string)
  | NotAnError.

(** [err instanceof Error ? err.message : fallback] *)
Definition errorMessage (err : thrown) (fallback : string) : string :=
  match err with
  | JsError m => m
  | NotAnError => fallback
  end.

Inductive result (A : Type) : Type :=
  | Ok (a : A)
  | Throw (err : thrown).
Arguments Ok {A} a.
Arguments Throw {A} err.

Module File.
Record t : Set := mk { name : string; type : string; content : list Byte.byte }.
End File.

(** The calls made to the collaborators and the messages handed to
    [setError], in the order in which they happen. *)
Inductive event : Set :=
  | EvStorageUpload (path contentType : string)
  | EvStorageGetPublicUrl (path : string)
  | EvStorageRemove (paths : list string)
  | EvDbInsert (category storage_path url : string)
  | EvDbDelete (id : string)
  | EvDbSelect (category : string)
  | EvSetError (message : string).

(** The browser and the Supabase client, as far as [images.ts] uses them.
    [Env] is whatever state they have; a call answers from it and may change
    it.  A storage or table call answers with its [error] field ([None] for
    [null]) or with [data]; a select also tells when its promise settles,
    which is what [Promise.all] goes by. *)
Class Collaborators (Env Blob : Type) : Type := {
  (** [img.onload] with the size of the image, or [img.onerror] *)
  Image_load : File.t -> option (Z * Z);
  (** [canvas.toBlob] of the image drawn at that size; [None] for [null] *)
  canvas_toBlob : File.t -> Z -> Z -> string -> float -> option Blob;
  crypto_randomUUID : Env -> string * Env;
  storage_upload : string -> Blob -> string -> Env -> option thrown * Env;
  storage_getPublicUrl : string -> string;
  storage_remove : list string -> Env -> option thrown * Env;
  images_insert : string -> string -> string -> Env -> (thrown + ImageRecord.t) * Env;
  images_delete : string -> Env -> option thrown * Env;
  images_select : string -> Env -> (nat * (thrown + list ImageRecord.t)) * Env
}.

(** [Promise.all]: the values in order when every promise is fulfilled,
    otherwise the reason of the promise that was rejected first (the earlier
    in the list among those rejected at the same time). *)
Fixpoint firstRejection {A : Type} (ps : list (nat * result A)) : option (nat * thrown) :=
  match ps with
  | [] => None
  | (_, Ok _) :: rest => firstRejection rest
  | (t, Throw err) :: rest =>
      match firstRejection rest with
      | Some (t', err') => if (t' <? t)%nat then Some (t', err') else Some (t, err)
      | None => Some (t, err)
      end
  end.

Fixpoint fulfilled {A : Type} (ps : list (nat * result A)) : list A :=
  match ps with
  | [] => []
  | (_, Ok a) :: rest => a :: fulfilled rest
  | (_, Throw _) :: rest => fulfilled rest
  end.

Definition Promise_all {A : Type} (ps : list (nat * result A)) : result (list A) :=
  match firstRejection ps with
  | Some (_, err) => Throw err
  | None => Ok (fulfilled ps)
  end.

(** ** [images.ts] and the image handlers of [App] *)

Section Pipeline.
Context {Env Blob : Type} `{Collaborators Env Blob}.

Record World : Type := mkWorld { env : Env; log : list event }.

(** An asynchronous function of [images.ts]: it runs against the world and
    returns or throws. *)
Definition IO (A : Type) : Type := World -> result A * World.

Definition ret {A : Type} (a : A) : IO A := fun w => (Ok a, w).

Definition throw {A : Type} (err : thrown) : IO A := fun w => (Throw err, w).

Definition bind {A B : Type} (m : IO A) (k : A -> IO B) : IO B :=
  fun w =>
    match m w with
    | (Ok a, w') => k a w'
    | (Throw err, w') => (Throw err, w')
    end.

Local Notation "x <- m ;; k" := (bind m (fun x => k))
  (at level 61, m at next level, right associativity).
Local Notation "m ;;; k" := (bind m (fun _ => k))
  (at level 61, right associativity).

Definition emit (ev : event) (w : World) : World :=
  {| env := env w; log := log w ++ [ev] |}.

(** A call to a collaborator: it is recorded, then answered. *)
Definition call {A : Type} (ev : event) (f : Env -> A * Env) : IO A :=
  fun w =>
    let (a, e') := f (env w) in
    (Ok a, {| env := e'; log := log w ++ [ev] |}).

(** [if (error) throw error] *)
Definition throwIf (error : option thrown) : IO unit :=
  match error with
  | Some err => throw err
  | None => ret tt
  end.

Definition fetchImagesByCategory (category : string) (w : World)
    : (nat * result (list ImageRecord.t)) * World :=
  let '((t, r), e') := images_select category (env w) in
  ((t, match r with inl err => Throw err | inr data => Ok data end),
   {| env := e'; log := log w ++ [EvDbSelect category] |}).

Definition compressImage (file : File.t) : IO Blob :=
  match Image_load file with
  | None => throw (JsError "Failed to load image")
  | Some (width, height) =>
      let (width', height') := canvasSize width height in
      match canvas_toBlob file width' height' "image/webp" QUALITY with
      | Some blob => ret blob
      | None => throw (JsError "Compression failed")
      end
  end.

(** [crypto.randomUUID()]: of the browser, not a call to a collaborator. *)
Definition randomUUID : IO string :=
  fun w =>
    let (uuid, e') := crypto_randomUUID (env w) in
    (Ok uuid, {| env := e'; log := log w |}).

Definition uploadImage (category : string) (file : File.t) : IO ImageRecord.t :=
  blob <- compressImage file ;;
  uuid <- randomUUID ;;
  let filename := category ++ "/" ++ uuid ++ ".webp" in
  storageError <- call (EvStorageUpload filename "image/webp")
                       (storage_upload filename blob "image/webp") ;;
  throwIf storageError ;;;
  publicUrl <- call (EvStorageGetPublicUrl filename)
                    (fun e => (storage_getPublicUrl filename, e)) ;;
  answer <- call (EvDbInsert category filename publicUrl)
                 (images_insert category filename publicUrl) ;;
  match answer with
  | inl dbError => throw dbError
  | inr data => ret data
  end.

Definition deleteImage (record : ImageRecord.t) : IO unit :=
  storageError <- call (EvStorageRemove [ImageRecord.storage_path record])
                       (storage_remove [ImageRecord.storage_path record]) ;;
  throwIf storageError ;;;
  dbError <- call (EvDbDelete (ImageRecord.id record))
                  (images_delete (ImageRecord.id record)) ;;
  throwIf dbError.

(** [setError(message)], recorded. *)
Definition showError (message : string) (st : AppState) (w : World)
    : AppState * World :=
  (setError (Some message) st, emit (EvSetError message) w).

(** [CATEGORIES.map((cat) => fetchImagesByCategory(cat.id))]: every request
    is issued, in order, before any answer is looked at. *)
Fixpoint fetchAll (ids : list string) (w : World)
    : list (nat * result (list ImageRecord.t)) * World :=
  match ids with
  | [] => ([], w)
  | c :: rest =>
      let (p, w1) := fetchImagesByCategory c w in
      let (ps, w2) := fetchAll rest w1 in
      (p :: ps, w2)
  end.

(** [CATEGORIES.map((cat, i) => ({ ...cat, images: results[i] }))] *)
Definition hydrate (results : list (list ImageRecord.t)) : list CategoryData.t :=
  map (fun '(cat, imgs) => CategoryData.with_images imgs cat)
      (combine CATEGORIES results).

(** The effect that loads the data, [cancelled] being the flag as it is
    when the promise settles. *)
Definition load (cancelled : bool) (st : AppState) (w : World) : AppState * World :=
  let (ps, w1) := fetchAll (map CategoryData.id CATEGORIES) w in
  match Promise_all ps with
  | Ok results =>
      if cancelled then (st, w1)
      else (setIsLoading false (setCategories (fun _ => hydrate results) st), w1)
  | Throw err =>
      if cancelled then (st, w1)
      else
        let (st1, w2) := showError (errorMessage err "Error al cargar datos") st w1 in
        (setIsLoading false st1, w2)
  end.

(** [[record, ...cat.images]] in the category [activeCategory] *)
Definition prependImage (activeCategory : string) (record : ImageRecord.t)
    (prev : list CategoryData.t) : list CategoryData.t :=
  map (fun cat =>
         if CategoryData.id cat =? activeCategory
         then CategoryData.with_images (record :: CategoryData.images cat) cat
         else cat) prev.

(** The [for] loop of [handleFileChange]; a [throw] leaves it. *)
Fixpoint uploadFiles (activeCategory : string) (files : list File.t)
    (st : AppState) (w : World) : result unit * AppState * World :=
  match files with
  | [] => (Ok tt, st, w)
  | file :: rest =>
      if negb (String.prefix "image/" (File.type file)) then
        uploadFiles activeCategory rest st w
      else
        match uploadImage activeCategory file w with
        | (Ok record, w1) =>
            uploadFiles activeCategory rest
              (setCategories (prependImage activeCategory record) st) w1
        | (Throw err, w1) => (Throw err, st, w1)
        end
  end.

(** A string or [null] taken as a condition. *)
Definition truthy (s : option string) : option string :=
  match s with
  | Some "" => None
  | other => other
  end.

Definition handleFileChange (files : option (list File.t)) (st : AppState)
    (w : World) : AppState * World :=
  match files, truthy (activeCategory st) with
  | Some files, Some activeCategory =>
      let st1 := setIsUploading true st in
      let '(r, st2, w2) := uploadFiles activeCategory files st1 w in
      let (st3, w3) :=
        match r with
        | Ok _ => (st2, w2)
        | Throw err => showError (errorMessage err "Error al subir imagen") st2 w2
        end in
      (setIsUploading false st3, w3)
  | _, _ => (st, w)
  end.

(** [cat.images.filter((img) => img.id !== record.id)] in the category
    [categoryId] *)
Definition removeImage (categoryId : string) (record : ImageRecord.t)
    (prev : list CategoryData.t) : list CategoryData.t :=
  map (fun cat =>
         if CategoryData.id cat =? categoryId
         then CategoryData.with_images
                (filter (fun img => negb (ImageRecord.id img =? ImageRecord.id record))
                        (CategoryData.images cat)) cat
         else cat) prev.

Definition handleDeleteImage (categoryId : string) (record : ImageRecord.t)
    (st : AppState) (w : World) : AppState * World :=
  match deleteImage record w with
  | (Ok _, w1) => (setCategories (removeImage categoryId record) st, w1)
  | (Throw err, w1) => showError (errorMessage err "Error al eliminar imagen") st w1
  end.
End Pipeline.

Arguments World : clear implicits.

(** ** A backend in memory

    An instance of the collaborators to run the handlers on: the table and
    the bucket are lists, identifiers are numbered, and the operations named
    in [broken] answer with an error. *)

Module Fake.
Record t : Set := mkEnv {
  rows : list ImageRecord.t;
  objects : list string;
  next : nat;
  broken : list string;
  delay : list (string * nat)
}.

Definition blob : Set := (Z * Z)%type.

Definition empty : t :=
  {| rows := []; objects := []; next := 0; broken := []; delay := [] |}.


Definition is_broken (op : string) (e : t) : bool :=
  existsb (String.eqb op) (broken e).

Definition decimal (n : nat) : string :=
  DecimalString.NilZero.string_of_uint (Nat.to_uint n).

Definition refused (op : string) : thrown := JsError (op ++ " refused").

Definition load (f : File.t) : option (Z * Z) :=
  match File.content f with
  | [] => None
  | [_] => Some (4801, 2)%Z
  | _ => Some (4000, 2000)%Z
  end.

Definition toBlob (f : File.t) (w h : Z) (type : string) (q : float) : option blob :=
  if (0 <? w)%Z && (0 <? h)%Z then Some (w, h) else None.

Definition randomUUID (e : t) : string * t :=
  ("uuid-" ++ decimal (next e),
   {| rows := rows e; objects := objects e; next := S (next e);
      broken := broken e; delay := delay e |}).

Definition upload (path : string) (b : blob) (type : string) (e : t)
    : option thrown * t :=
  if is_broken "storage.upload" e then (Some (refused "storage.upload"), e)
  else (None, {| rows := rows e; objects := path :: objects e; next := next e;
                 broken := broken e; delay := delay e |}).

Definition getPublicUrl (path : string) : string :=
  "https://storage.test/tablero-images/" ++ path.

Definition remove (paths : list string) (e : t) : option thrown * t :=
  if is_broken "storage.remove" e then (Some (refused "storage.remove"), e)
  else (None, {| rows := rows e;
                 objects := filter (fun p => negb (existsb (String.eqb p) paths))
                                   (objects e);
                 next := next e; broken := broken e; delay := delay e |}).

Definition insert (category path url : string) (e : t)
    : (thrown + ImageRecord.t) * t :=
  if is_broken "images.insert" e then (inl (refused "images.insert"), e)
  else
    let r := {| ImageRecord.id := "img-" ++ decimal (next e);
                ImageRecord.category := category;
                ImageRecord.storage_path := path;
                ImageRecord.url := url;
                ImageRecord.created_at := decimal (next e) |} in
    (inr r, {| rows := r :: rows e; objects := objects e; next := S (next e);
               broken := broken e; delay := delay e |}).

Definition delete (id : string) (e : t) : option thrown * t :=
  if is_broken "images.delete" e then (Some (refused "images.delete"), e)
  else (None, {| rows := filter (fun r => negb (ImageRecord.id r =? id)) (rows e);
                 objects := objects e; next := next e; broken := broken e;
                 delay := delay e |}).

Definition settles (category : string) (e : t) : nat :=
  match find (fun d => fst d =? category) (delay e) with
  | Some d => snd d
  | None => 0%nat
  end.

Definition select (category : string) (e : t)
    : (nat * (thrown + list ImageRecord.t)) * t :=
  if is_broken ("images.select:" ++ category) e
  then ((settles category e, inl (refused ("images.select:" ++ category))), e)
  else ((settles category e,
         inr (filter (fun r => ImageRecord.category r =? category) (rows e))), e).

#[global] Instance collaborators : Collaborators t blob :=
  {| Image_load := load;
     canvas_toBlob := toBlob;
     crypto_randomUUID := randomUUID;
     storage_upload := upload;
     storage_getPublicUrl := getPublicUrl;
     storage_remove := remove;
     images_insert := insert;
     images_delete := delete;
     images_select := select |}.

Definition world (e : t) : World t := {| env := e; log := [] |}.

Definition image (name : string) : File.t :=
  {| File.name := name; File.type := "image/png"; File.content := [Byte.x89; Byte.x50] |}.

Definition undecodable (name : string) : File.t :=
  {| File.name := name; File.type := "image/png"; File.content := [] |}.

Definition document (name : string) : File.t :=
  {| File.name := name; File.type := "application/pdf"; File.content := [Byte.x89; Byte.x50] |}.

(** An image of 4801 by 2 pixels. *)
Definition strip (name : string) : File.t :=
  {| File.name := name; File.type := "image/png"; File.content := [Byte.x89] |}.
End Fake.

(** The application on the page of the category "campo", data loaded. *)
Definition onCampo : AppState :=
  setIsLoading false (setActiveCategory (Some "campo") appInit).

(** ** Definitions that follow the words of the specification *)

(** clamp(v, lo, hi) *)
Definition clamp (v lo hi : float) : float :=
  if (v <? lo)%float then lo else if (hi <? v)%float then hi else v.

(** The toggle of a double tap: back to (1, (0,0)) when zoomed in, otherwise
    to (2.5, (0,0)). *)
Definition toggleZoom (st : ZoomState) : ZoomState :=
  if (1 <? scale st)%float then resetZoom st
  else setPosition origin (setScale 2.5 st).


Definition finiteTouch (t : Touch) : Prop :=
  is_finite (clientX t) = true /\ is_finite (clientY t) = true.

Definition touch (a b : float) : Touch := {| clientX := a; clientY := b |}.

(** The baseline of a pinch is established: a distance that is positive and
    finite, and a scale in [1, 5]. *)
Definition established (st : ZoomState) : Prop :=
  (0 <? pinchStartDistRef st)%float = true /\
  (pinchStartDistRef st <? infinity)%float = true /\
  (1 <=? pinchStartScaleRef st)%float = true /\
  (pinchStartScaleRef st <=? 5)%float = true.


(** [st'] is the state left by [handleTouchEnd] or by a two-point move. *)
Definition endOrPinch (st st' : ZoomState) : Prop :=
  st' = handleTouchEnd st \/ exists t0 t1, st' = handleTouchMove [t0; t1] st.

(** ** Classes of numbers in the specification of the floats *)

(** The sign bit is [s], and the value is not NaN. *)
Definition SFsigned (s : bool) (f : spec_float) : Prop :=
  match f with
  | S754_nan => False
  | S754_zero s' | S754_infinity s' | S754_finite s' _ _ => s' = s
  end.

(** Not negative: positive, a zero of either sign, or [+infinity]. *)
Definition SFnonneg (f : spec_float) : Prop :=
  match f with
  | S754_nan => False
  | S754_zero _ => True
  | S754_infinity s | S754_finite s _ _ => s = false
  end.

(** A number: not NaN. *)
Definition SFnum (f : spec_float) : Prop :=
  match f with S754_nan => False | _ => True end.

(** ** The scenario of the specification on the backend in memory *)

(** The images of the category [categoryId]. *)
Definition imagesOf (categoryId : string) (st : AppState) : list ImageRecord.t :=
  flat_map (fun cat => if CategoryData.id cat =? categoryId
                       then CategoryData.images cat else [])
           (categories st).

Definition recordA : ImageRecord.t :=
  {| ImageRecord.id := "img-1";
     ImageRecord.category := "campo";
     ImageRecord.storage_path := "campo/uuid-0.webp";
     ImageRecord.url := "https://storage.test/tablero-images/campo/uuid-0.webp";
     ImageRecord.created_at := "1" |}.

Definition recordB : ImageRecord.t :=
  {| ImageRecord.id := "img-3";
     ImageRecord.category := "campo";
     ImageRecord.storage_path := "campo/uuid-2.webp";
     ImageRecord.url := "https://storage.test/tablero-images/campo/uuid-2.webp";
     ImageRecord.created_at := "3" |}.

(** File A uploaded into "campo", then file B. *)
Definition afterA : AppState * World Fake.t :=
  handleFileChange (Some [Fake.image "A"]) onCampo (Fake.world Fake.empty).

Definition afterAB : AppState * World Fake.t :=
  handleFileChange (Some [Fake.image "B"]) (fst afterA) (snd afterA).


(** ** The stream of gestures and the modal

    The events the modal of [App] hands to the zoom handlers, and the state
    after a sequence of them. *)

Inductive gesture : Set :=
  | Tap (now : Z)
  | TouchStart (touches : list Touch)
  | TouchMove (touches : list Touch)
  | TouchEnd.

Definition gestureStep (g : gesture) (st : ZoomState) : ZoomState :=
  match g with
  | Tap now => handleDoubleTap now st
  | TouchStart touches => handleTouchStart touches st
  | TouchMove touches => handleTouchMove touches st
  | TouchEnd => handleTouchEnd st
  end.

Definition gestureRun (gs : list gesture) (st : ZoomState) : ZoomState :=
  fold_left (fun s g => gestureStep g s) gs st.

(** The scale is a number of the interval [1, 5]. *)
Definition inRange (s : float) : Prop :=
  (1 <=? s)%float = true /\ (s <=? 5)%float = true.

(** Two touches on different points, at a distance that is a finite number:
    what a two-point start or move of a real pinch carries. *)
Definition properPinch (t0 t1 : Touch) : Prop :=
  (0 <? touchDist t0 t1)%float = true /\
  (touchDist t0 t1 <? infinity)%float = true.

Definition properGesture (g : gesture) : Prop :=
  match g with
  | TouchStart [t0; t1] => properPinch t0 t1
  | TouchMove [t0; t1] => (0 <? touchDist t0 t1)%float = true
  | _ => True
  end.

(** The pan offset is (0,0) whenever the scale is at most 1. *)
Definition recentred (st : ZoomState) : Prop :=
  (scale st <=? 1)%float = true -> position st = origin.

(** The scale and the baseline scale are in [1, 5], and the baseline
    distance is zero (none taken yet) or a positive finite number. *)
Definition pinchReady (st : ZoomState) : Prop :=
  inRange (scale st) /\ inRange (pinchStartScaleRef st) /\
  (0 <=? pinchStartDistRef st)%float = true /\
  (pinchStartDistRef st <? infinity)%float = true.

(** One touch, put down or moved. *)
Definition oneFinger (g : gesture) : Prop :=
  match g with
  | TouchStart [_] | TouchMove [_] => True
  | _ => False
  end.

(** [modalImage] together with the zoom state: the image shown in the modal,
    [None] for [null]. *)
Record Modal : Set := mkModal {
  modalImage : option string;
  zoom : ZoomState
}.

Definition modalInit : Modal := {| modalImage := None; zoom := zoomInit |}.

(** [onClick={() => setModalImage(img.url)}] of an image of the grid. *)
Definition openModal (url : string) (m : Modal) : Modal :=
  {| modalImage := Some url; zoom := zoom m |}.

Definition closeModal (m : Modal) : Modal :=
  {| modalImage := None; zoom := resetZoom (zoom m) |}.

Inductive modalEvent : Set :=
  | Open (url : string)
  | Close
  | Gesture (g : gesture).

(** The zoom handlers hang on the content of the modal, which is rendered
    only under [modalImage &&]: without it no gesture reaches them. *)
Definition modalStep (ev : modalEvent) (m : Modal) : Modal :=
  match ev with
  | Open url => openModal url m
  | Close => closeModal m
  | Gesture g =>
      match truthy (modalImage m) with
      | Some _ => {| modalImage := modalImage m; zoom := gestureStep g (zoom m) |}
      | None => m
      end
  end.

Definition modalRun (evs : list modalEvent) (m : Modal) : Modal :=
  fold_left (fun s ev => modalStep ev s) evs m.

(** The modal is closed and the image is at scale 1, not panned. *)
Definition closedUnzoomed (m : Modal) : Prop :=
  modalImage m = None -> scale (zoom m) = 1%float /\ position (zoom m) = origin.

(** ** The theme and the admin session

    [localStorage] and [sessionStorage]: string keys to string values. *)

Definition Storage : Type := string -> option string.

Definition emptyStorage : Storage := fun _ => None.

Definition getItem (key : string) (s : Storage) : option string := s key.

Definition setItem (key value : string) (s : Storage) : Storage :=
  fun k => if k =? key then Some value else s k.

Definition removeItem (key : string) (s : Storage) : Storage :=
  fun k => if k =? key then None else s k.

(** The initial value of [theme]: the stored one unless it is missing or
    empty, otherwise what the media query says. *)
Definition themeInit (localStorage : Storage) (prefersLight : bool) : string :=
  match truthy (getItem "tablero-theme" localStorage) with
  | Some t => t
  | None => if prefersLight then "light" else "dark"
  end.

(** The effect on [theme]: the attribute of the document and the stored
    value. *)
Definition themeEffect (theme : string) (localStorage : Storage) : string * Storage :=
  (theme, setItem "tablero-theme" theme localStorage).

Definition toggleTheme (prev : string) : string :=
  if prev =? "dark" then "light" else "dark".

Record AdminState : Set := mkAdmin {
  isAdmin : bool;
  showLogin : bool;
  loginUser : string;
  loginPass : string;
  loginError : string
}.

(** [sessionStorage.getItem('tablero-admin') === 'true'] and the other
    initial values. *)
Definition adminInit (sessionStorage : Storage) : AdminState :=
  {| isAdmin := match getItem "tablero-admin" sessionStorage with
                | Some v => v =? "true"
                | None => false
                end;
     showLogin := false; loginUser := ""; loginPass := ""; loginError := "" |}.

(** The [onChange] of the two inputs of the form. *)
Definition changeLoginUser (value : string) (a : AdminState) : AdminState :=
  {| isAdmin := isAdmin a; showLogin := showLogin a; loginUser := value;
     loginPass := loginPass a; loginError := "" |}.

Definition changeLoginPass (value : string) (a : AdminState) : AdminState :=
  {| isAdmin := isAdmin a; showLogin := showLogin a; loginUser := loginUser a;
     loginPass := value; loginError := "" |}.

Definition handleLogin (a : AdminState) (sessionStorage : Storage)
    : AdminState * Storage :=
  if (loginUser a =? "admin") && (loginPass a =? "nemby2026") then
    ({| isAdmin := true; showLogin := false; loginUser := ""; loginPass := "";
        loginError := "" |},
     setItem "tablero-admin" "true" sessionStorage)
  else
    ({| isAdmin := isAdmin a; showLogin := showLogin a; loginUser := loginUser a;
        loginPass := loginPass a;
        loginError := "Usuario o contraseña incorrectos" |},
     sessionStorage).

Definition handleLogout (a : AdminState) (sessionStorage : Storage)
    : AdminState * Storage :=
  ({| isAdmin := false; showLogin := showLogin a; loginUser := loginUser a;
      loginPass := loginPass a; loginError := loginError a |},
   removeItem "tablero-admin" sessionStorage).

(** What is done with the login form and the admin button. *)
Inductive adminEvent : Set :=
  | TypeUser (value : string)
  | TypePass (value : string)
  | Submit
  | Logout.

Definition adminStep (ev : adminEvent) (s : AdminState * Storage) : AdminState * Storage :=
  match ev with
  | TypeUser value => (changeLoginUser value (fst s), snd s)
  | TypePass value => (changeLoginPass value (fst s), snd s)
  | Submit => handleLogin (fst s) (snd s)
  | Logout => handleLogout (fst s) (snd s)
  end.

Definition adminRun (evs : list adminEvent) (s : AdminState * Storage)
    : AdminState * Storage :=
  fold_left (fun s ev => adminStep ev s) evs s.

(** ** The events of the image pipeline *)

(** The category of the page: [categories.find((c) => c.id === activeCategory)]. *)
Definition currentCategory (st : AppState) : option CategoryData.t :=
  match activeCategory st with
  | Some active => find (fun c => CategoryData.id c =? active) (categories st)
  | None => None
  end.

(** A category without its images. *)
Definition skeleton (cats : list CategoryData.t) : list CategoryData.t :=
  map (CategoryData.with_images []) cats.

(** No image of the category [categoryId] has the identifier [id]. *)
Definition freshIn (categoryId id : string) (cats : list CategoryData.t) : bool :=
  forallb (fun cat =>
             negb (CategoryData.id cat =? categoryId) ||
             forallb (fun img => negb (ImageRecord.id img =? id))
                     (CategoryData.images cat)) cats.

(** The calls of an upload: the three of [uploadImage]. *)
Definition uploadCall (ev : event) : bool :=
  match ev with
  | EvStorageUpload _ _ | EvStorageGetPublicUrl _ | EvDbInsert _ _ _ => true
  | _ => false
  end.

(** The three calls of one upload that reached the table, in their order. *)
Definition uploadCalls (category path url : string) : list event :=
  [EvStorageUpload path "image/webp"; EvStorageGetPublicUrl path;
   EvDbInsert category path url].

(** The state holds the four categories and no upload is in flight. *)
Definition settled (st : AppState) : Prop :=
  skeleton (categories st) = CATEGORIES /\ isUploading st = false.

Definition isImage (file : File.t) : bool :=
  String.prefix "image/" (File.type file).

Section PipelineEvents.
Context {Env Blob : Type} `{Collaborators Env Blob}.

(** The records that [uploadImage] returns for the files of a list, called
    for one after the other, each on the world that the one before left, up
    to the first call that throws. *)
Fixpoint uploadedRecords (category : string) (files : list File.t) (w : World Env)
    : list ImageRecord.t :=
  match files with
  | [] => []
  | file :: rest =>
      match uploadImage category file w with
      | (Ok record, w1) => record :: uploadedRecords category rest w1
      | (Throw _, _) => []
      end
  end.

(** What happens to the application: the first load settles, files are
    selected, an image is deleted, a page is shown. *)
Inductive appEvent : Type :=
  | Loaded (cancelled : bool)
  | FilesSelected (files : option (list File.t))
  | DeleteClicked (categoryId : string) (record : ImageRecord.t)
  | PageShown (category : option string).

Definition appStep (ev : appEvent) (s : AppState * World Env) : AppState * World Env :=
  match ev with
  | Loaded cancelled => load cancelled (fst s) (snd s)
  | FilesSelected files => handleFileChange files (fst s) (snd s)
  | DeleteClicked categoryId record => handleDeleteImage categoryId record (fst s) (snd s)
  | PageShown category => (setActiveCategory category (fst s), snd s)
  end.

Definition appRun (evs : list appEvent) (s : AppState * World Env) : AppState * World Env :=
  fold_left (fun s ev => appStep ev s) evs s.
End PipelineEvents.

(** * Properties

    ** Rounding in the specification of the floats *)

Section SpecRounding.
Local Abbreviation bra := (binary_round_aux prec emax).

Lemma shr_1_nonneg mrs : (0 <= shr_m mrs)%Z -> (0 <= shr_m (shr_1 mrs))%Z.
Proof.
  destruct mrs as [m r s]; simpl.
  destruct m as [|p|p]; [reflexivity| |lia].
  destruct p; simpl; lia.
Qed.

Lemma iter_pos_nonneg p : forall mrs,
  (0 <= shr_m mrs)%Z -> (0 <= shr_m (iter_pos shr_1 p mrs))%Z.
Proof.
  induction p as [p IH|p IH|]; intros mrs H; simpl.
  - apply IH, IH, shr_1_nonneg, H.
  - apply IH, IH, H.
  - apply shr_1_nonneg, H.
Qed.

Lemma shr_fexp_nonneg m e l :
  (0 <= m)%Z -> (0 <= shr_m (fst (shr_fexp prec emax m e l)))%Z.
Proof.
  intros H. unfold shr_fexp, shr.
  assert (H0 : (0 <= shr_m (shr_record_of_loc m l))%Z)
    by (destruct l as [|[]]; exact H).
  destruct (_ - e)%Z; simpl; auto using iter_pos_nonneg.
Qed.

Lemma round_nearest_even_nonneg m l :
  (0 <= m)%Z -> (0 <= round_nearest_even m l)%Z.
Proof.
  intros H. destruct l as [|[]]; simpl; try lia.
  destruct (Z.even m); lia.
Qed.

Lemma binary_round_aux_signed s m e l :
  (0 <= m)%Z -> SFsigned s (bra s m e l).
Proof.
  intros H. unfold binary_round_aux.
  pose proof (shr_fexp_nonneg m e l H) as H1.
  destruct (shr_fexp prec emax m e l) as [mrs' e'] eqn:E1. simpl in H1.
  pose proof (round_nearest_even_nonneg _ (loc_of_shr_record mrs') H1) as H2.
  pose proof (shr_fexp_nonneg _ e' loc_Exact H2) as H3.
  destruct (shr_fexp prec emax _ e' loc_Exact) as [mrs'' e''] eqn:E2. simpl in H3.
  destruct (shr_m mrs'') as [|p|p]; simpl; [reflexivity| |lia].
  destruct (_ <=? _)%Z; reflexivity.
Qed.

End SpecRounding.

(** ** Comparisons of floats through their specification *)

Ltac float_spec :=
  repeat match goal with
  | H : context [(_ <? _)%float] |- _ => rewrite ltb_spec in H
  | H : context [(_ <=? _)%float] |- _ => rewrite leb_spec in H
  | H : context [(_ =? _)%float] |- _ => rewrite eqb_spec in H
  | |- context [(_ <? _)%float] => rewrite ltb_spec
  | |- context [(_ <=? _)%float] => rewrite leb_spec
  | |- context [(_ =? _)%float] => rewrite eqb_spec
  end.

Lemma ltb_leb a b : (a <? b)%float = true -> (a <=? b)%float = true.
Proof.
  float_spec. unfold SFltb, SFleb. destruct (SFcompare _ _) as [[]|]; congruence.
Qed.

Lemma eqb_leb a b : (a =? b)%float = true -> (a <=? b)%float = true.
Proof.
  float_spec. unfold SFeqb, SFleb. destruct (SFcompare _ _) as [[]|]; congruence.
Qed.

(** A number that is positive, zero of either sign, or [+infinity]. *)
Lemma leb_zero_spec x :
  (0 <=? x)%float = true <-> SFnonneg (Prim2SF x).
Proof.
  float_spec. change (Prim2SF 0) with (S754_zero false).
  destruct (Prim2SF x) as [s|[]| |[] m e]; cbv [SFleb SFltb SFeqb SFcompare SFnonneg]; intuition congruence.
Qed.

Lemma ltb_zero_spec x :
  (0 <? x)%float = true <->
  match Prim2SF x with
  | S754_infinity s | S754_finite s _ _ => s = false
  | _ => False
  end.
Proof.
  float_spec. change (Prim2SF 0) with (S754_zero false).
  destruct (Prim2SF x) as [s|[]| |[] m e]; cbv [SFleb SFltb SFeqb SFcompare SFnonneg]; intuition congruence.
Qed.

Lemma ltb_infinity_spec x :
  (x <? infinity)%float = true <->
  match Prim2SF x with
  | S754_nan => False
  | S754_infinity s => s = true
  | _ => True
  end.
Proof.
  float_spec. change (Prim2SF infinity) with (S754_infinity false).
  destruct (Prim2SF x) as [[]|[]| |[] m e]; cbv [SFleb SFltb SFeqb SFcompare SFnonneg]; intuition congruence.
Qed.

(** ** Signs of the results of the arithmetic *)


Lemma SFdiv_core_nonneg mx ex my ey :
  (0 <= fst (fst (SFdiv_core_binary prec emax (Zpos mx) ex (Zpos my) ey)))%Z.
Proof.
  unfold SFdiv_core_binary.
  set (s := (_ - _ - _)%Z).
  set (m' := match s with Zpos _ => Z.shiftl (Zpos mx) s | Z0 => Zpos mx | Zneg _ => 0%Z end).
  assert (Hm : (0 <= m')%Z).
  { subst m'. destruct s; try lia. apply Z.shiftl_nonneg. lia. }
  pose proof (Z.div_pos m' (Zpos my) Hm ltac:(lia)) as Hq.
  unfold Z.div in Hq. destruct (Z.div_eucl m' (Zpos my)) as [q r]. exact Hq.
Qed.




Lemma is_finite_spec a :
  is_finite a = true <->
  match Prim2SF a with S754_zero _ | S754_finite _ _ _ => True | _ => False end.
Proof.
  unfold is_finite, is_nan, is_infinity. rewrite !eqb_spec, abs_spec.
  change (Prim2SF infinity) with (S754_infinity false).
  destruct (Prim2SF a) as [s|s| |s m e]; cbv [SFabs SFeqb SFcompare];
    try (simpl; intuition congruence).
  - destruct s; simpl; intuition congruence.
  - rewrite Z.compare_refl, Pos.compare_cont_refl.
    destruct s; simpl; intuition congruence.
Qed.






(** ** Order properties of the comparisons *)

Lemma SFcompare_refl f : SFnum f -> SFcompare f f = Some Eq.
Proof.
  destruct f as [s|s| |s m e]; simpl; try tauto; intros _.
  - destruct s; reflexivity.
  - rewrite Z.compare_refl, Pos.compare_cont_refl. destruct s; reflexivity.
Qed.

Lemma SFcompare_antisym f g :
  SFcompare g f = option_map CompOpp (SFcompare f g).
Proof.
  destruct f as [s|s| |s m e], g as [s'|s'| |s' m' e']; simpl; try reflexivity;
    try (destruct s; reflexivity); try (destruct s'; reflexivity);
    try (destruct s, s'; reflexivity).
  assert (Hm : Pos.compare_cont Eq m' m = CompOpp (Pos.compare_cont Eq m m'))
    by (rewrite Pos.compare_cont_antisym; reflexivity).
  rewrite (Z.compare_antisym e' e), Hm.
  destruct s, s', (e' ?= e)%Z; simpl; try reflexivity.
Qed.

Lemma SFcompare_num f g : SFnum f -> SFnum g -> SFcompare f g <> None.
Proof. destruct f, g; simpl; try tauto; discriminate. Qed.

Lemma is_nan_spec a : is_nan a = false <-> SFnum (Prim2SF a).
Proof.
  unfold is_nan. rewrite eqb_spec. unfold SFeqb. split.
  - destruct (Prim2SF a); simpl; try tauto. discriminate.
  - intros H. now rewrite SFcompare_refl.
Qed.


Lemma ltb_asym a b : (a <? b)%float = true -> (b <? a)%float = false.
Proof.
  rewrite !ltb_spec. unfold SFltb. rewrite (SFcompare_antisym (Prim2SF a) (Prim2SF b)).
  destruct (SFcompare _ _) as [[]|]; simpl; congruence.
Qed.

(** Two numbers of which neither is below the other compare equal. *)
Lemma ltb_total a b :
  is_nan a = false -> is_nan b = false ->
  (a <? b)%float = false -> (b <? a)%float = false -> (a =? b)%float = true.
Proof.
  rewrite !is_nan_spec, !ltb_spec, eqb_spec. unfold SFltb, SFeqb. intros Ha Hb.
  rewrite (SFcompare_antisym (Prim2SF a) (Prim2SF b)).
  pose proof (SFcompare_num _ _ Ha Hb) as H.
  destruct (SFcompare _ _) as [[]|]; simpl; congruence.
Qed.

(** Numbers that compare equal to a non-zero one are that number. *)
Lemma eqb_eq_finite a b s m e :
  Prim2SF b = S754_finite s m e -> (a =? b)%float = true -> a = b.
Proof.
  intros Hb. rewrite eqb_spec, Hb. unfold SFeqb. intros H.
  apply Prim2SF_inj. rewrite Hb.
  destruct (Prim2SF a) as [s'|s'| |s' m' e']; simpl in H;
    try discriminate; try (destruct s'; discriminate); try (destruct s; discriminate).
  destruct (e' ?= e)%Z eqn:He;
    try (destruct s', s; discriminate).
  destruct (Pos.compare_cont Eq m' m) eqn:Hm;
    try (destruct s', s; discriminate).
  apply Z.compare_eq in He. apply (Pos.compare_eq m' m) in Hm. subst.
  destruct s', s; try discriminate; reflexivity.
Qed.

(** What is above 5 is above 1. *)
Lemma ltb_5_1 a : (5 <? a)%float = true -> (1 <? a)%float = true.
Proof.
  rewrite !ltb_spec.
  change (Prim2SF 5) with (S754_finite false 5629499534213120 (-50)).
  change (Prim2SF 1) with (S754_finite false 4503599627370496 (-52)).
  destruct (Prim2SF a) as [s|s| |s m e]; cbv [SFltb SFcompare]; try congruence.
  destruct s; try congruence.
  destruct (Z.compare_spec (-50) e); destruct (Z.compare_spec (-52) e);
    try lia; congruence.
Qed.

Lemma ltb_false_leb a b :
  is_nan a = false -> is_nan b = false ->
  (a <? b)%float = false -> (b <=? a)%float = true.
Proof.
  rewrite !is_nan_spec, ltb_spec, leb_spec. unfold SFltb, SFleb. intros Ha Hb.
  rewrite (SFcompare_antisym (Prim2SF a) (Prim2SF b)).
  pose proof (SFcompare_num _ _ Ha Hb) as H.
  destruct (SFcompare _ _) as [[]|]; simpl; congruence.
Qed.

Lemma Math_max_1 v :
  is_nan v = false ->
  Math_max 1 v = if (1 <? v)%float then v else 1%float.
Proof.
  intros Hv. unfold Math_max. rewrite Hv.
  change (is_nan 1) with false. change (is_neg_zero 1) with false.
  rewrite andb_false_r, !orb_false_r. reflexivity.
Qed.

Lemma Math_min_5 v :
  is_nan v = false ->
  Math_min 5 v = if (v <? 5)%float then v else 5%float.
Proof.
  intros Hv. unfold Math_min. rewrite Hv.
  change (is_nan 5) with false. change (is_pos_zero 5) with false.
  rewrite andb_false_r, !orb_false_r. reflexivity.
Qed.

Lemma min_max_clamp v :
  is_nan v = false -> Math_min 5 (Math_max 1 v) = clamp v 1 5.
Proof.
  intros Hv. rewrite Math_max_1 by exact Hv. unfold clamp.
  destruct (1 <? v)%float eqn:H1.
  - rewrite Math_min_5 by exact Hv. rewrite (ltb_asym 1 v) by exact H1.
    destruct (v <? 5)%float eqn:H5.
    + rewrite (ltb_asym v 5) by exact H5. reflexivity.
    + destruct (5 <? v)%float eqn:H5'; [reflexivity|].
      symmetry. apply eqb_eq_finite with (s := false) (m := 5629499534213120%positive) (e := (-50)%Z); [reflexivity|].
      now apply ltb_total.
  - change (Math_min 5 1) with 1%float.
    destruct (v <? 1)%float eqn:H1'; [reflexivity|].
    destruct (5 <? v)%float eqn:H5.
    + apply ltb_5_1 in H5. congruence.
    + symmetry. apply eqb_eq_finite with (s := false) (m := 4503599627370496%positive) (e := (-52)%Z); [reflexivity|].
      now apply ltb_total.
Qed.

Lemma clamp_range v :
  is_nan v = false ->
  (1 <=? clamp v 1 5)%float = true /\ (clamp v 1 5 <=? 5)%float = true.
Proof.
  intros Hv. unfold clamp.
  destruct (v <? 1)%float eqn:H1; [split; reflexivity|].
  destruct (5 <? v)%float eqn:H5; [split; reflexivity|].
  split; apply ltb_false_leb; auto.
Qed.

(** The clamp lets NaN through. *)
Lemma min_max_nan : Math_min 5 (Math_max 1 nan) = nan.
Proof. reflexivity. Qed.

(** ** The pinch *)



Lemma handleTouchStart_established t0 t1 st :
  (0 <? touchDist t0 t1)%float = true ->
  (touchDist t0 t1 <? infinity)%float = true ->
  (1 <=? scale st)%float = true -> (scale st <=? 5)%float = true ->
  established (handleTouchStart [t0; t1] st).
Proof. intros; repeat split; assumption. Qed.

Lemma handleTouchMove_scale t0 t1 st :
  scale (handleTouchMove [t0; t1] st) = pinchScale st (touchDist t0 t1).
Proof.
  unfold handleTouchMove. destruct (_ <=? _)%float; reflexivity.
Qed.

Lemma handleTouchMove_refs t0 t1 st :
  pinchStartDistRef (handleTouchMove [t0; t1] st) = pinchStartDistRef st /\
  pinchStartScaleRef (handleTouchMove [t0; t1] st) = pinchStartScaleRef st.
Proof.
  unfold handleTouchMove. destruct (_ <=? _)%float; split; reflexivity.
Qed.



(** ** The pinch without a baseline *)

Lemma div_zero_pos a : (0 <? a)%float = true -> (a / 0)%float = infinity.
Proof.
  rewrite ltb_zero_spec. intros Ha. apply Prim2SF_inj.
  rewrite div_spec. unfold SF64div.
  change (Prim2SF 0) with (S754_zero false).
  change (Prim2SF infinity) with (S754_infinity false).
  destruct (Prim2SF a) as [s|s| |s m e]; try tauto; subst; reflexivity.
Qed.

Lemma mul_infinity a : (1 <=? a)%float = true -> (a * infinity)%float = infinity.
Proof.
  rewrite leb_spec. intros Ha. apply Prim2SF_inj.
  rewrite mul_spec. unfold SF64mul. revert Ha.
  change (Prim2SF 1) with (S754_finite false 4503599627370496 (-52)).
  change (Prim2SF infinity) with (S754_infinity false).
  destruct (Prim2SF a) as [s|s| |s m e]; cbv [SFleb SFcompare];
    try congruence; destruct s; try congruence; reflexivity.
Qed.

(** C3, as the code has it.  A two-point move whose baseline distance is zero
    (never established, or taken from two touches on one point) is not
    guarded: when the current distance is positive and the baseline scale is
    at least 1, the ratio is [+infinity] and the move publishes the upper
    bound of the clamp, 5, leaving the pan offset as it was. *)
Theorem pinch_zero_baseline (st : ZoomState) (t0 t1 : Touch) :
  pinchStartDistRef st = 0%float ->
  (1 <=? pinchStartScaleRef st)%float = true ->
  (0 <? touchDist t0 t1)%float = true ->
  handleTouchMove [t0; t1] st = setScale 5 st.
Proof.
  intros Hd Hs Hdist. unfold handleTouchMove, pinchScale.
  rewrite Hd, div_zero_pos, mul_infinity by assumption.
  reflexivity.
Qed.

Lemma pinch_zero_baseline_witness :
  let st := zoomInit in
  let t0 := touch 0 0 in
  let t1 := touch 30 40 in
  (pinchStartDistRef st = 0%float /\
   (1 <=? pinchStartScaleRef st)%float = true /\
   touchDist t0 t1 = 50%float) /\
  handleTouchMove [t0; t1] st = setScale 5 st.
Proof.
  split; [repeat split; reflexivity|].
  apply pinch_zero_baseline; reflexivity.
Defined.

(** Zero over zero: on a zero baseline a move of two touches at distance zero
    publishes NaN, whatever the baseline scale. *)
Lemma pinch_zero_over_zero (st : ZoomState) (t0 t1 : Touch) :
  pinchStartDistRef st = 0%float ->
  (touchDist t0 t1 =? 0)%float = true ->
  handleTouchMove [t0; t1] st = setScale nan st.
Proof.
  intros Hd Hdist. unfold handleTouchMove, pinchScale. rewrite Hd.
  assert (Hq : (touchDist t0 t1 / 0)%float = nan).
  { apply Prim2SF_inj. rewrite div_spec. revert Hdist. rewrite eqb_spec.
    change (Prim2SF 0) with (S754_zero false).
    destruct (Prim2SF (touchDist t0 t1)) as [s|s| |s m e];
      cbv [SFeqb SFcompare]; try congruence; try reflexivity;
      destruct s; congruence. }
  assert (Hp : (pinchStartScaleRef st * nan)%float = nan).
  { apply Prim2SF_inj. rewrite mul_spec.
    change (Prim2SF nan) with S754_nan.
    destruct (Prim2SF (pinchStartScaleRef st)); reflexivity. }
  rewrite Hq, Hp, min_max_nan. reflexivity.
Qed.

(** C3, as stated, fails.  No baseline has been established ([zoomInit]),
    and a move of two touches 50 apart publishes scale 5 instead of leaving
    scale 1; a move of two touches on one point publishes NaN. *)
Lemma pinch_zero_baseline_counterexample :
  pinchStartDistRef zoomInit = 0%float /\
  scale zoomInit = 1%float /\
  scale (handleTouchMove [touch 0 0; touch 30 40] zoomInit) = 5%float /\
  (scale (handleTouchMove [touch 0 0; touch 30 40] zoomInit) =? scale zoomInit)%float = false /\
  scale (handleTouchMove [touch 10 10; touch 10 10] zoomInit) = nan /\
  is_finite (scale (handleTouchMove [touch 10 10; touch 10 10] zoomInit)) = false.
Proof. repeat split; reflexivity. Qed.

(** ** Scale 1 and the pan offset *)

(** C5. After every [handleTouchEnd] and after every two-point move, a scale
    equal to 1 comes with the pan offset (0,0); and a gesture that ends with
    a scale of at most 1 ends at exactly (1, (0,0)). *)
Theorem unit_scale_recentres (st st' : ZoomState) :
  endOrPinch st st' ->
  ((scale st' =? 1)%float = true -> position st' = origin) /\
  (st' = handleTouchEnd st -> (scale st' <=? 1)%float = true ->
   scale st' = 1%float /\ position st' = origin).
Proof.
  intros Hstep.
  assert (Hend : (scale (handleTouchEnd st) <=? 1)%float = true ->
                 scale (handleTouchEnd st) = 1%float /\
                 position (handleTouchEnd st) = origin).
  { unfold handleTouchEnd. destruct (scale st <=? 1)%float eqn:E; simpl.
    - intros _. split; reflexivity.
    - congruence. }
  split.
  - intros H1. apply eqb_leb in H1.
    destruct Hstep as [->|(t0 & t1 & ->)].
    + apply Hend, H1.
    + revert H1. unfold handleTouchMove.
      destruct (pinchScale st (touchDist t0 t1) <=? 1)%float eqn:E; simpl.
      * reflexivity.
      * congruence.
  - intros ->. exact Hend.
Qed.

Lemma unit_scale_recentres_witness :
  let panned := setPosition {| Point.x := 40; Point.y := -25 |}
                  (handleTouchStart [touch 0 0; touch 100 0] (setScale 3 zoomInit)) in
  let st' := handleTouchMove [touch 0 0; touch 20 0] panned in
  (position panned = {| Point.x := 40; Point.y := -25 |} /\ scale st' = 1%float) /\
  endOrPinch panned st' /\
  position st' = origin.
Proof.
  split; [split; reflexivity|].
  assert (H : endOrPinch
    (setPosition {| Point.x := 40; Point.y := -25 |}
       (handleTouchStart [touch 0 0; touch 100 0] (setScale 3 zoomInit)))
    (handleTouchMove [touch 0 0; touch 20 0]
       (setPosition {| Point.x := 40; Point.y := -25 |}
          (handleTouchStart [touch 0 0; touch 100 0] (setScale 3 zoomInit)))))
    by (right; exists (touch 0 0), (touch 20 0); reflexivity).
  split; [exact H|].
  exact (proj1 (unit_scale_recentres _ _ H) eq_refl).
Defined.

(** ** The double tap *)

(** C9. A tap less than 300 ms after the last one toggles the zoom: a scale
    above 1 goes back to (1, (0,0)), any other goes to (2.5, (0,0)); a later
    tap leaves the zoom alone; and every tap records its time.  So of two
    taps that follow a pause, the second toggles when it comes 250 ms after
    the first and does not when it comes 350 ms after. *)
Theorem double_tap_toggles (now : Z) (st : ZoomState) :
  let st' := handleDoubleTap now st in
  lastTapRef st' = now /\
  ((now - lastTapRef st < 300)%Z ->
     position st' = origin /\
     scale st' = if (1 <? scale st)%float then 1%float else 2.5%float) /\
  ((300 <= now - lastTapRef st)%Z ->
     scale st' = scale st /\ position st' = position st) /\
  ((300 <= now - lastTapRef st)%Z ->
     handleDoubleTap (now + 250) st' = setLastTap (now + 250) (toggleZoom st) /\
     handleDoubleTap (now + 350) st' = setLastTap (now + 350) st).
Proof.
  unfold handleDoubleTap, DOUBLE_TAP_DELAY, toggleZoom.
  destruct (Z.ltb_spec (now - lastTapRef st) 300) as [Hlt|Hge];
    (split; [|split; [|split]]); try (intros; lia).
  - destruct (1 <? scale st)%float; reflexivity.
  - intros _. destruct (1 <? scale st)%float; split; reflexivity.
  - reflexivity.
  - intros _. split; reflexivity.
  - intros _. cbn [lastTapRef setLastTap scale].
    replace (now + 250 - now <? 300)%Z with true by (symmetry; apply Z.ltb_lt; lia).
    replace (now + 350 - now <? 300)%Z with false by (symmetry; apply Z.ltb_ge; lia).
    destruct (1 <? scale st)%float; split; reflexivity.
Qed.

(** C9, on the taps of the specification: after a pause, a second tap 250 ms
    after the first zooms to 2.5 and one 350 ms after leaves scale 1. *)
Lemma double_tap_toggles_witness :
  let first := 1700000000000%Z in
  let st := handleDoubleTap first zoomInit in
  (300 <= first - lastTapRef zoomInit)%Z /\
  (scale st = 1%float /\ lastTapRef st = first) /\
  (scale (handleDoubleTap (first + 250) st) = 2.5%float /\
   position (handleDoubleTap (first + 250) st) = origin /\
   lastTapRef (handleDoubleTap (first + 250) st) = (first + 250)%Z) /\
  (scale (handleDoubleTap (first + 350) st) = 1%float /\
   lastTapRef (handleDoubleTap (first + 350) st) = (first + 350)%Z).
Proof.
  assert (Hpause : (300 <= 1700000000000 - lastTapRef zoomInit)%Z)
    by (apply Z.leb_le; reflexivity).
  destruct (double_tap_toggles 1700000000000 zoomInit) as (Hlast & _ & Hkeep & Htwo).
  destruct (Hkeep Hpause) as [Hscale _]. destruct (Htwo Hpause) as [H250 H350].
  split; [exact Hpause|]. split; [split; [exact Hscale|exact Hlast]|].
  split.
  - rewrite H250. repeat split; reflexivity.
  - rewrite H350. split; reflexivity.
Defined.

(** ** The size of the canvas

    [Math.round(height * (MAX_SIZE / width))] rounds three times: the
    quotient and the product to binary64, the result to an integer.  The
    first two are followed through the specification of the primitives
    ([binary_round_aux]): each leaves a 53-bit mantissa and is off by at most
    [2^-52] of the exact value. *)

Lemma digits2_pos_bounds (p : positive) :
  (2 ^ (Zpos (digits2_pos p) - 1) <= Zpos p < 2 ^ Zpos (digits2_pos p))%Z.
Proof.
  induction p as [p IH|p IH|]; cbn [digits2_pos].
  - rewrite Pos2Z.inj_succ.
    replace (Z.succ (Zpos (digits2_pos p)) - 1)%Z with (Z.succ (Zpos (digits2_pos p) - 1))%Z by lia.
    rewrite !Z.pow_succ_r by lia. lia.
  - rewrite Pos2Z.inj_succ.
    replace (Z.succ (Zpos (digits2_pos p)) - 1)%Z with (Z.succ (Zpos (digits2_pos p) - 1))%Z by lia.
    rewrite !Z.pow_succ_r by lia. lia.
  - cbn. lia.
Qed.

Lemma digits2_pos_unique (p : positive) (k : Z) :
  (2 ^ (k - 1) <= Zpos p < 2 ^ k)%Z -> Zpos (digits2_pos p) = k.
Proof.
  intros [Hlo Hhi]. pose proof (digits2_pos_bounds p) as [Dlo Dhi].
  assert (0 < k)%Z.
  { destruct (Z.ltb_spec 0 k) as [|Hk]; [assumption|].
    destruct (Z.eq_dec k 0) as [->|]; [cbn in Hhi; lia|].
    rewrite Z.pow_neg_r in Hhi by lia. lia. }
  destruct (Z.lt_trichotomy (Zpos (digits2_pos p)) k) as [Hlt|[Heq|Hgt]]; [|assumption|].
  - assert (2 ^ Zpos (digits2_pos p) <= 2 ^ (k - 1))%Z by (apply Z.pow_le_mono_r; lia). lia.
  - assert (2 ^ k <= 2 ^ (Zpos (digits2_pos p) - 1))%Z by (apply Z.pow_le_mono_r; lia). lia.
Qed.

Lemma shr_1_m (mrs : shr_record) :
  (0 <= shr_m mrs)%Z -> shr_m (shr_1 mrs) = (shr_m mrs / 2)%Z.
Proof.
  destruct mrs as [m r s]. cbn [shr_m]. intros Hm.
  destruct m as [|p|p]; [reflexivity| |lia].
  destruct p as [p|p|]; cbn [shr_1 shr_m].
  - rewrite Pos2Z.inj_xI. apply Z.div_unique with (r := 1%Z); lia.
  - rewrite Pos2Z.inj_xO. apply Z.div_unique with (r := 0%Z); lia.
  - reflexivity.
Qed.

Lemma iter_shr_m (p : positive) (mrs : shr_record) :
  (0 <= shr_m mrs)%Z ->
  shr_m (SpecFloat.iter_pos shr_1 p mrs) = (shr_m mrs / 2 ^ Zpos p)%Z.
Proof.
  revert mrs. induction p as [p IH|p IH|]; intros mrs Hm; cbn [SpecFloat.iter_pos].
  - assert (H1 : (0 <= shr_m (shr_1 mrs))%Z).
    { rewrite shr_1_m by assumption. apply Z.div_pos; lia. }
    assert (H2 : (0 <= shr_m (SpecFloat.iter_pos shr_1 p (shr_1 mrs)))%Z).
    { rewrite IH by assumption. apply Z.div_pos; [assumption|]. apply Z.pow_pos_nonneg; lia. }
    rewrite IH, IH, shr_1_m by assumption.
    rewrite !Z.div_div by (try apply Z.pow_pos_nonneg; lia).
    f_equal. rewrite <- Z.pow_add_r by lia.
    replace (Zpos p~1) with (Z.succ (Zpos p + Zpos p)) by lia.
    rewrite Z.pow_succ_r by lia. reflexivity.
  - assert (H2 : (0 <= shr_m (SpecFloat.iter_pos shr_1 p mrs))%Z).
    { rewrite IH by assumption. apply Z.div_pos; [assumption|]. apply Z.pow_pos_nonneg; lia. }
    rewrite IH, IH by assumption.
    rewrite !Z.div_div by (try apply Z.pow_pos_nonneg; lia).
    f_equal. rewrite <- Z.pow_add_r by lia. f_equal. lia.
  - rewrite shr_1_m by assumption. reflexivity.
Qed.

Lemma shr_record_of_loc_m (m : Z) (l : location) : shr_m (shr_record_of_loc m l) = m.
Proof. destruct l as [|[| |]]; reflexivity. Qed.

Lemma round_nearest_even_cases (m : Z) (l : location) :
  round_nearest_even m l = m \/ round_nearest_even m l = (m + 1)%Z.
Proof.
  destruct l as [|[| |]]; cbn; auto. destruct (Z.even m); auto.
Qed.

Lemma Zdigits2_pos (m : Z) : (0 < m)%Z -> (2 ^ (Zdigits2 m - 1) <= m < 2 ^ Zdigits2 m)%Z.
Proof.
  destruct m as [|p|p]; try lia. intros _. apply digits2_pos_bounds.
Qed.

Lemma Zdigits2_unique (m k : Z) :
  (2 ^ (k - 1) <= m < 2 ^ k)%Z -> (0 < m)%Z -> Zdigits2 m = k.
Proof.
  destruct m as [|p|p]; try lia. intros H _. apply digits2_pos_unique, H.
Qed.

Lemma fexp_normal (e : Z) : (-1074 <= e - 53)%Z -> fexp prec emax e = (e - 53)%Z.
Proof. unfold fexp, emin, prec, emax. lia. Qed.

(** The first step of a rounding: the mantissa is cut down to 53 bits. *)
Lemma shr_fexp_spec (mx ex : Z) (lx : location) :
  (0 < mx)%Z -> (53 <= Zdigits2 mx)%Z -> (-1074 <= ex + Zdigits2 mx - 53)%Z ->
  exists mrs,
    shr_fexp prec emax mx ex lx = (mrs, (ex + Zdigits2 mx - 53)%Z) /\
    shr_m mrs = (mx / 2 ^ (Zdigits2 mx - 53))%Z /\
    (Zdigits2 mx = 53%Z -> mrs = shr_record_of_loc mx lx).
Proof.
  intros Hm Hd He. unfold shr_fexp. rewrite fexp_normal by lia.
  replace (Zdigits2 mx + ex - 53 - ex)%Z with (Zdigits2 mx - 53)%Z by lia.
  destruct (Zdigits2 mx - 53)%Z as [|p|p] eqn:Hn; try lia; cbn [shr].
  - exists (shr_record_of_loc mx lx). repeat split.
    + f_equal. lia.
    + rewrite shr_record_of_loc_m. cbn. rewrite Z.div_1_r. reflexivity.
  - exists (SpecFloat.iter_pos shr_1 p (shr_record_of_loc mx lx)). repeat split.
    + f_equal. lia.
    + rewrite iter_shr_m by (rewrite shr_record_of_loc_m; lia).
      rewrite shr_record_of_loc_m. reflexivity.
    + lia.
Qed.

Lemma binary_round_aux_spec (s : bool) (mx ex : Z) (lx : location) :
  (0 < mx)%Z -> (53 <= Zdigits2 mx)%Z ->
  (-1074 <= ex + Zdigits2 mx - 53)%Z -> (ex + Zdigits2 mx <= 1023)%Z ->
  exists (m : positive) (e k : Z),
    binary_round_aux prec emax s mx ex lx = S754_finite s m e /\
    (2 ^ 52 <= Zpos m < 2 ^ 53)%Z /\
    (ex + Zdigits2 mx - 53 <= e <= ex + Zdigits2 mx - 52)%Z /\
    (k = mx / 2 ^ (Zdigits2 mx - 53) \/ k = mx / 2 ^ (Zdigits2 mx - 53) + 1)%Z /\
    (IZR (Zpos m) * powerRZ 2 e = IZR k * powerRZ 2 (ex + Zdigits2 mx - 53))%R /\
    (Zdigits2 mx = 53%Z -> lx = loc_Exact -> Zpos m = mx /\ e = ex).
Proof.
  intros Hm Hd Hlo Hhi.
  destruct (shr_fexp_spec mx ex lx Hm Hd Hlo) as (mrs & Hshr & Hq & Hexact).
  pose proof (Zdigits2_pos mx Hm) as [Dlo Dhi].
  set (d := Zdigits2 mx) in *. set (n := (d - 53)%Z) in *.
  set (q := (mx / 2 ^ n)%Z) in *.
  assert (Hpn : (0 < 2 ^ n)%Z) by (apply Z.pow_pos_nonneg; lia).
  assert (Hq52 : (2 ^ 52 <= q < 2 ^ 53)%Z).
  { assert (E1 : (2 ^ (d - 1) = 2 ^ 52 * 2 ^ n)%Z).
    { rewrite <- Z.pow_add_r by lia. f_equal. lia. }
    assert (E2 : (2 ^ d = 2 ^ 53 * 2 ^ n)%Z).
    { rewrite <- Z.pow_add_r by lia. f_equal. lia. }
    split.
    - apply Z.div_le_lower_bound; lia.
    - apply Z.div_lt_upper_bound; lia. }
  unfold binary_round_aux. rewrite Hshr.
  set (m1 := round_nearest_even (shr_m mrs) (loc_of_shr_record mrs)).
  assert (Hm1 : m1 = q \/ m1 = (q + 1)%Z).
  { subst m1. rewrite <- Hq. apply round_nearest_even_cases. }
  assert (Hm1exact : d = 53%Z -> lx = loc_Exact -> m1 = mx).
  { intros Hd53 ->. subst m1. rewrite (Hexact Hd53). reflexivity. }
  clearbody m1.
  assert (Hm1pos : (0 < m1)%Z) by lia.
  destruct (Z.eq_dec m1 (2 ^ 53)) as [Hcarry|Hcarry].
  - (* the rounding carried into a 54th bit *)
    assert (Hd1 : Zdigits2 m1 = 54%Z).
    { apply Zdigits2_unique; [|lia]. rewrite Hcarry. cbn. lia. }
    destruct (shr_fexp_spec m1 (ex + d - 53) loc_Exact Hm1pos) as (mrs2 & Hshr2 & Hq2 & _);
      [lia|lia|].
    rewrite Hshr2, Hq2, Hd1, Hcarry.
    change (2 ^ 53 / 2 ^ (54 - 53))%Z with (Zpos (2 ^ 52)%positive).
    replace (ex + d - 53 + 54 - 53)%Z with (ex + d - 52)%Z by lia.
    destruct (Z.leb_spec (ex + d - 52) (emax - prec)) as [_|Hbad];
      [|unfold emax, prec in Hbad; lia].
    exists (2 ^ 52)%positive, (ex + d - 52)%Z, (q + 1)%Z.
    split; [reflexivity|]. split; [cbn; lia|]. split; [lia|]. split; [lia|]. split.
    + replace (ex + d - 52)%Z with (ex + d - 53 + 1)%Z by lia.
      rewrite powerRZ_add by lra.
      replace (q + 1)%Z with (2 ^ 53)%Z by lia.
      change (powerRZ 2 1) with (2 * 1)%R.
      change (Zpos (2 ^ 52)%positive) with (2 ^ 52)%Z.
      replace (IZR (2 ^ 53)) with (IZR (2 ^ 52) * 2)%R; [ring|].
      rewrite <- mult_IZR. f_equal.
    + intros Hd53 Hl. specialize (Hm1exact Hd53 Hl).
      subst n. rewrite Hd53 in Dhi. lia.
  - assert (Hd1 : Zdigits2 m1 = 53%Z).
    { apply Zdigits2_unique; [|lia]. change (53 - 1)%Z with 52%Z. lia. }
    destruct (shr_fexp_spec m1 (ex + d - 53) loc_Exact Hm1pos) as (mrs2 & Hshr2 & Hq2 & _);
      [lia|lia|].
    rewrite Hshr2, Hq2, Hd1. change (2 ^ (53 - 53))%Z with 1%Z. rewrite Z.div_1_r.
    replace (ex + d - 53 + 53 - 53)%Z with (ex + d - 53)%Z by lia.
    destruct m1 as [|m|m]; try lia.
    destruct (Z.leb_spec (ex + d - 53) (emax - prec)) as [_|Hbad];
      [|unfold emax, prec in Hbad; lia].
    exists m, (ex + d - 53)%Z, (Zpos m).
    split; [reflexivity|]. split; [lia|]. split; [lia|]. split; [lia|].
    split; [reflexivity|].
    intros Hd53 Hl. split; [apply (Hm1exact Hd53 Hl)|lia].
Qed.

Lemma IZR_pow2 (n : Z) : (0 <= n)%Z -> IZR (2 ^ n) = powerRZ 2 n.
Proof.
  destruct n as [|p|p]; try lia; intros _.
  - reflexivity.
  - change (2 ^ Zpos p)%Z with (Z.pow_pos 2 p). apply Zpower_pos_powerRZ.
Qed.

Lemma powerRZ_2_pos (e : Z) : (0 < powerRZ 2 e)%R.
Proof. apply powerRZ_lt. lra. Qed.

(** A rounding is off by less than one unit of the 53-bit mantissa it
    leaves: by at most [2^-52] of the value that is rounded. *)
Lemma binary_round_aux_error (s : bool) (mx ex : Z) (lx : location) (V : R) :
  (0 < mx)%Z -> (53 <= Zdigits2 mx)%Z ->
  (-1074 <= ex + Zdigits2 mx - 53)%Z -> (ex + Zdigits2 mx <= 1023)%Z ->
  (IZR mx * powerRZ 2 ex <= V <= (IZR mx + 1) * powerRZ 2 ex)%R ->
  exists (m : positive) (e : Z),
    binary_round_aux prec emax s mx ex lx = S754_finite s m e /\
    (2 ^ 52 <= Zpos m < 2 ^ 53)%Z /\
    (ex + Zdigits2 mx - 53 <= e <= ex + Zdigits2 mx - 52)%Z /\
    (V * (1 - / 4503599627370496) <= IZR (Zpos m) * powerRZ 2 e
       <= V * (1 + / 4503599627370496))%R.
Proof.
  intros Hm Hd Hlo Hhi HV.
  destruct (binary_round_aux_spec s mx ex lx Hm Hd Hlo Hhi)
    as (m & e & k & Hr & Hm52 & He & Hk & Hval & _).
  exists m, e. split; [assumption|]. split; [assumption|]. split; [assumption|].
  rewrite Hval. clear Hval Hr.
  pose proof (Zdigits2_pos mx Hm) as [Dlo Dhi].
  set (d := Zdigits2 mx) in *. set (n := (d - 53)%Z) in *.
  assert (Hpn : (0 < 2 ^ n)%Z) by (apply Z.pow_pos_nonneg; lia).
  set (q := (mx / 2 ^ n)%Z) in *.
  assert (Hq52 : (2 ^ 52 <= q)%Z).
  { assert (E1 : (2 ^ (d - 1) = 2 ^ 52 * 2 ^ n)%Z).
    { rewrite <- Z.pow_add_r by lia. f_equal. lia. }
    apply Z.div_le_lower_bound; lia. }
  assert (Hq1 : (q * 2 ^ n <= mx)%Z).
  { subst q. rewrite Z.mul_comm. apply Z.mul_div_le. lia. }
  assert (Hq2 : (mx + 1 <= (q + 1) * 2 ^ n)%Z).
  { subst q. pose proof (Z.mul_succ_div_gt mx (2 ^ n) Hpn). lia. }
  replace (ex + d - 53)%Z with (ex + n)%Z by lia.
  rewrite powerRZ_add by lra. rewrite <- (IZR_pow2 n) by lia.
  pose proof (powerRZ_2_pos ex) as Hex. set (b := powerRZ 2 ex) in *.
  apply IZR_le in Hq52, Hq1, Hq2. apply IZR_lt in Hpn.
  rewrite mult_IZR in Hq1. rewrite mult_IZR, !plus_IZR in Hq2.
  change (IZR (2 ^ 52)) with 4503599627370496%R in Hq52.
  set (P := IZR (2 ^ n)) in *. set (Q := IZR q) in *. set (M := IZR mx) in *.
  assert (HQP : (Q * (P * b) <= V <= (Q + 1) * (P * b))%R) by nra.
  assert (Hu : (0 < P * b)%R) by nra.
  set (u := (P * b)%R) in *.
  assert (Hu52 : (4503599627370496 * u <= V)%R) by nra.
  assert (Hk' : (IZR k = Q \/ IZR k = Q + 1)%R).
  { destruct Hk as [->| ->]; [left; reflexivity|right; rewrite plus_IZR; reflexivity]. }
  assert (Heps : (V * / 4503599627370496 >= u)%R).
  { apply Rle_ge. apply Rmult_le_reg_l with (r := 4503599627370496%R); [lra|].
    field_simplify. lra. }
  replace (b * P)%R with u by (subst u; ring). clearbody u.
  destruct Hk' as [-> | ->]; split; lra.
Qed.

Lemma Zdigits2_range (m lo hi : Z) :
  (0 <= lo)%Z -> (2 ^ lo <= m < 2 ^ hi)%Z -> (lo + 1 <= Zdigits2 m <= hi)%Z.
Proof.
  intros Hlo [H1 H2].
  assert (Hm : (0 < m)%Z) by (pose proof (Z.pow_pos_nonneg 2 lo); lia).
  pose proof (Zdigits2_pos m Hm) as [D1 D2].
  assert (Hd : (0 < Zdigits2 m)%Z) by (destruct m; cbn; lia).
  split.
  - destruct (Z.le_gt_cases (lo + 1) (Zdigits2 m)) as [|Hc]; [assumption|].
    assert (2 ^ Zdigits2 m <= 2 ^ lo)%Z by (apply Z.pow_le_mono_r; lia). lia.
  - destruct (Z.le_gt_cases (Zdigits2 m) hi) as [|Hc]; [assumption|].
    assert (2 ^ hi <= 2 ^ (Zdigits2 m - 1))%Z by (apply Z.pow_le_mono_r; lia). lia.
Qed.

(** The product of two positive normal numbers, away from overflow and
    underflow. *)
Lemma mul_error (x y : float) (mx my : positive) (ex ey : Z) :
  Prim2SF x = S754_finite false mx ex -> Prim2SF y = S754_finite false my ey ->
  (2 ^ 52 <= Zpos mx < 2 ^ 53)%Z -> (2 ^ 52 <= Zpos my < 2 ^ 53)%Z ->
  (-1126 <= ex + ey <= 917)%Z ->
  exists (m : positive) (e : Z),
    Prim2SF (x * y) = S754_finite false m e /\
    (2 ^ 52 <= Zpos m < 2 ^ 53)%Z /\
    (ex + ey + 52 <= e <= ex + ey + 54)%Z /\
    let V := ((IZR (Zpos mx) * powerRZ 2 ex) * (IZR (Zpos my) * powerRZ 2 ey))%R in
    (V * (1 - / 4503599627370496) <= IZR (Zpos m) * powerRZ 2 e
       <= V * (1 + / 4503599627370496))%R.
Proof.
  intros Hx Hy Hmx Hmy He.
  rewrite mul_spec, Hx, Hy. unfold SF64mul, SFmul. cbn [xorb].
  assert (HP : (2 ^ 104 <= Zpos (mx * my) < 2 ^ 106)%Z).
  { rewrite Pos2Z.inj_mul.
    change (2 ^ 104)%Z with (2 ^ 52 * 2 ^ 52)%Z. change (2 ^ 106)%Z with (2 ^ 53 * 2 ^ 53)%Z.
    split; [apply Z.mul_le_mono_nonneg; lia|apply Z.mul_lt_mono_nonneg; lia]. }
  pose proof (Zdigits2_range _ 104 106 ltac:(lia) HP) as Hd.
  set (V := ((IZR (Zpos mx) * powerRZ 2 ex) * (IZR (Zpos my) * powerRZ 2 ey))%R).
  assert (HV : (IZR (Zpos (mx * my)) * powerRZ 2 (ex + ey) <= V
                <= (IZR (Zpos (mx * my)) + 1) * powerRZ 2 (ex + ey))%R).
  { subst V. rewrite Pos2Z.inj_mul, mult_IZR, powerRZ_add by lra.
    pose proof (powerRZ_2_pos ex). pose proof (powerRZ_2_pos ey).
    split; nra. }
  destruct (binary_round_aux_error false (Zpos (mx * my)) (ex + ey) loc_Exact V)
    as (m & e & Hr & Hm & Hexp & Herr); try lia; [assumption|].
  exists m, e. split; [assumption|]. split; [assumption|]. split; [lia|]. exact Herr.
Qed.

(** The quotient of two positive normal numbers, away from overflow and
    underflow. *)
Lemma div_error (x y : float) (mx my : positive) (ex ey : Z) :
  Prim2SF x = S754_finite false mx ex -> Prim2SF y = S754_finite false my ey ->
  (2 ^ 52 <= Zpos mx < 2 ^ 53)%Z -> (2 ^ 52 <= Zpos my < 2 ^ 53)%Z ->
  (-1021 <= ex - ey <= 1022)%Z ->
  exists (m : positive) (e : Z),
    Prim2SF (x / y) = S754_finite false m e /\
    (2 ^ 52 <= Zpos m < 2 ^ 53)%Z /\
    (ex - ey - 53 <= e <= ex - ey - 51)%Z /\
    let V := ((IZR (Zpos mx) * powerRZ 2 ex) / (IZR (Zpos my) * powerRZ 2 ey))%R in
    (V * (1 - / 4503599627370496) <= IZR (Zpos m) * powerRZ 2 e
       <= V * (1 + / 4503599627370496))%R.
Proof.
  intros Hx Hy Hmx Hmy He.
  rewrite div_spec, Hx, Hy. unfold SF64div, SFdiv, SFdiv_core_binary. cbn [xorb].
  rewrite (Zdigits2_unique (Zpos mx) 53), (Zdigits2_unique (Zpos my) 53) by (cbn; lia).
  rewrite fexp_normal by lia.
  replace (Z.min (53 + ex - (53 + ey) - 53) (ex - ey))%Z with (ex - ey - 53)%Z by lia.
  replace (ex - ey - (ex - ey - 53))%Z with 53%Z by lia.
  rewrite Z.shiftl_mul_pow2 by lia.
  pose proof (Z.div_eucl_eq (Zpos mx * 2 ^ 53) (Zpos my) ltac:(lia)) as Hdiv.
  pose proof (Z.mod_pos_bound (Zpos mx * 2 ^ 53) (Zpos my) ltac:(lia)) as Hmod.
  unfold Z.modulo in Hmod.
  destruct (Z.div_eucl (Zpos mx * 2 ^ 53) (Zpos my)) as [q r].
  assert (Hq : (2 ^ 52 <= q < 2 ^ 54)%Z).
  { change (2 ^ 53)%Z with 9007199254740992%Z in *. change (2 ^ 52)%Z with 4503599627370496%Z in *.
    change (2 ^ 54)%Z with 18014398509481984%Z. nia. }
  pose proof (Zdigits2_range q 52 54 ltac:(lia) Hq) as Hd.
  set (V := ((IZR (Zpos mx) * powerRZ 2 ex) / (IZR (Zpos my) * powerRZ 2 ey))%R).
  assert (HV : (IZR q * powerRZ 2 (ex - ey - 53) <= V
                <= (IZR q + 1) * powerRZ 2 (ex - ey - 53))%R).
  { subst V.
    replace (ex - ey - 53)%Z with (ex + (- ey) + (- 53))%Z by lia.
    rewrite !powerRZ_add by lra. rewrite (powerRZ_neg' 2 ey).
    pose proof (powerRZ_2_pos ex) as Hex. pose proof (powerRZ_2_pos ey) as Hey.
    change (powerRZ 2 (-53)) with (powerRZ 2 (- (53))).
    rewrite (powerRZ_neg' 2 53), <- (IZR_pow2 53) by lia.
    change (IZR (2 ^ 53)) with 9007199254740992%R.
    assert (Hmy0 : (0 < IZR (Zpos my))%R) by (apply IZR_lt; lia).
    assert (E : (IZR (Zpos mx) * 9007199254740992 = IZR (Zpos my) * IZR q + IZR r)%R).
    { rewrite <- !mult_IZR, <- plus_IZR. f_equal. exact Hdiv. }
    assert (Hr0 : (0 <= IZR r)%R) by (apply IZR_le; lia).
    assert (Hr1 : (IZR r + 1 <= IZR (Zpos my))%R).
    { rewrite <- plus_IZR. apply IZR_le. lia. }
    set (A := IZR (Zpos mx)) in *. set (B := IZR (Zpos my)) in *.
    set (a := powerRZ 2 ex) in *. set (b := powerRZ 2 ey) in *.
    replace (A * a / (B * b))%R with ((A * 9007199254740992 / B) * (a * / b * / 9007199254740992))%R
      by (field; lra).
    rewrite E.
    assert (Hs : (0 < a * / b * / 9007199254740992)%R).
    { apply Rmult_lt_0_compat; [apply Rmult_lt_0_compat|]; [assumption| |lra].
      apply Rinv_0_lt_compat. assumption. }
    replace (IZR q * (a * / b * / 9007199254740992))%R
      with (IZR q * (a * / b * / 9007199254740992))%R by reflexivity.
    set (t := (a * / b * / 9007199254740992)%R) in *.
    assert (Hlo : (IZR q <= (B * IZR q + IZR r) / B)%R).
    { apply Rmult_le_reg_r with (r := B); [assumption|]. field_simplify; lra. }
    assert (Hhi : ((B * IZR q + IZR r) / B <= IZR q + 1)%R).
    { apply Rmult_le_reg_r with (r := B); [assumption|]. field_simplify; lra. }
    split; nra. }
  destruct (binary_round_aux_error false q (ex - ey - 53) (new_location (Zpos my) r) V)
    as (m & e & Hr & Hm & Hexp & Herr); try lia; [assumption|].
  exists m, e. split; [assumption|]. split; [assumption|]. split; [lia|]. exact Herr.
Qed.

Lemma iter_xO (p k : positive) : Zpos (Pos.iter xO p k) = (Zpos p * 2 ^ Zpos k)%Z.
Proof.
  induction k as [|k IH] using Pos.peano_ind.
  - cbn. lia.
  - rewrite Pos.iter_succ, Pos2Z.inj_succ, Z.pow_succ_r, Pos2Z.inj_xO, IH by lia. lia.
Qed.

Lemma valid_normal (s : bool) (m : positive) (e : Z) :
  (2 ^ 52 <= Zpos m < 2 ^ 53)%Z -> (-1074 <= e <= 971)%Z ->
  valid_binary (S754_finite s m e) = true.
Proof.
  intros Hm He. cbn [SpecFloat.valid_binary]. unfold bounded, canonical_mantissa.
  rewrite (digits2_pos_unique m 53) by (cbn; lia).
  rewrite fexp_normal by lia. apply andb_true_intro. split.
  - apply Z.eqb_eq. lia.
  - apply Z.leb_le. unfold emax, prec. lia.
Qed.

(** A positive integer below [2^53] is a number, exactly. *)
Lemma Z2float_spec (n : Z) :
  (0 < n < 2 ^ 53)%Z ->
  exists (m : positive) (e : Z),
    Prim2SF (Z2float n) = S754_finite false m e /\
    (2 ^ 52 <= Zpos m < 2 ^ 53)%Z /\ (-52 <= e <= 0)%Z /\
    Zpos m = (n * 2 ^ (- e))%Z /\
    (IZR (Zpos m) * powerRZ 2 e = IZR n)%R.
Proof.
  intros [Hn0 Hn]. destruct n as [|p|p]; try lia.
  pose proof (digits2_pos_bounds p) as [Dlo Dhi].
  set (d := Zpos (digits2_pos p)) in *.
  assert (Hd : (1 <= d <= 53)%Z).
  { split; [subst d; lia|].
    destruct (Z.le_gt_cases d 53) as [|Hc]; [assumption|].
    assert (2 ^ 53 <= 2 ^ (d - 1))%Z by (apply Z.pow_le_mono_r; lia). lia. }
  assert (Hsh : exists mz : positive,
             shl_align p 0 (fexp prec emax (d + 0)) = (mz, (d - 53)%Z) /\
             Zpos mz = (Zpos p * 2 ^ (53 - d))%Z).
  { rewrite fexp_normal by lia. unfold shl_align.
    replace (d + 0 - 53 - 0)%Z with (d - 53)%Z by lia.
    destruct (d - 53)%Z as [|k|k] eqn:Hk; try lia.
    - exists p. split; [reflexivity|]. replace (53 - d)%Z with 0%Z by lia. cbn. lia.
    - exists (Pos.iter xO p k). split; [f_equal; lia|].
      rewrite iter_xO. f_equal. f_equal. lia. }
  destruct Hsh as (mz & Hsh & Hmz).
  assert (Hmz52 : (2 ^ 52 <= Zpos mz < 2 ^ 53)%Z).
  { rewrite Hmz.
    assert (E1 : (2 ^ 52 = 2 ^ (d - 1) * 2 ^ (53 - d))%Z).
    { rewrite <- Z.pow_add_r by lia. f_equal. lia. }
    assert (E2 : (2 ^ 53 = 2 ^ d * 2 ^ (53 - d))%Z).
    { rewrite <- Z.pow_add_r by lia. f_equal. lia. }
    assert (0 < 2 ^ (53 - d))%Z by (apply Z.pow_pos_nonneg; lia).
    rewrite E1, E2. split; [apply Z.mul_le_mono_nonneg_r; lia|apply Z.mul_lt_mono_pos_r; lia]. }
  assert (Hdz : Zdigits2 (Zpos mz) = 53%Z) by (apply Zdigits2_unique; [cbn; lia|lia]).
  destruct (binary_round_aux_spec false (Zpos mz) (d - 53) loc_Exact)
    as (m & e & k & Hr & Hm52 & He & _ & _ & Hexact); try lia.
  destruct (Hexact Hdz eq_refl) as [Em Ee].
  assert (HSF : binary_normalize prec emax (Zpos p) 0 false = S754_finite false mz (d - 53)).
  { cbn [binary_normalize]. unfold binary_round. fold d. rewrite Hsh, Hr.
    f_equal; [congruence|lia]. }
  exists mz, (d - 53)%Z. split.
  - unfold Z2float. rewrite HSF. apply Prim2SF_SF2Prim. apply valid_normal; lia.
  - split; [assumption|]. split; [lia|]. split.
    + rewrite Hmz. f_equal. f_equal. lia.
    + rewrite Hmz, mult_IZR, IZR_pow2 by lia. rewrite Rmult_assoc, <- powerRZ_add by lra.
      replace (53 - d + (d - 53))%Z with 0%Z by lia. cbn. ring.
Qed.

Lemma toUnsignedLong_Z2float (n : Z) :
  (0 <= n < 2 ^ 32)%Z -> toUnsignedLong (Z2float n) = n.
Proof.
  intros Hn. change (2 ^ 32)%Z with 4294967296%Z in *.
  destruct (Z.eq_dec n 0) as [->|Hnz].
  - unfold toUnsignedLong, Z2float. cbn [binary_normalize].
    rewrite Prim2SF_SF2Prim by reflexivity. reflexivity.
  - destruct (Z2float_spec n) as (m' & e' & Hz & Hm' & He' & Hval & _).
    { change (2 ^ 53)%Z with 9007199254740992%Z. lia. }
    unfold toUnsignedLong. rewrite Hz.
    change (2 ^ 32)%Z with 4294967296%Z in *.
    destruct e' as [|k'|k']; [|lia|].
    + change (2 ^ (- 0))%Z with 1%Z in Hval. change (2 ^ 0)%Z with 1%Z.
      rewrite Z.mod_small; lia.
    + change (- Zneg k')%Z with (Zpos k') in Hval.
      rewrite Hval, Z.quot_mul by (pose proof (Z.pow_pos_nonneg 2 (Zpos k')); lia).
      rewrite Z.mod_small; lia.
Qed.

Lemma powerRZ_2_ge_1 (e : Z) : (0 <= e)%Z -> (1 <= powerRZ 2 e)%R.
Proof.
  intros He. rewrite <- IZR_pow2 by assumption. apply IZR_le.
  pose proof (Z.pow_pos_nonneg 2 e). lia.
Qed.

(** [Math.round] of a positive number below [2^31], as the pixel count a
    canvas takes from it. *)
Lemma round_pixels (x : float) (m : positive) (e : Z) :
  Prim2SF x = S754_finite false m e -> (2 ^ 52 <= Zpos m < 2 ^ 53)%Z ->
  (IZR (Zpos m) * powerRZ 2 e < 2147483648)%R ->
  let N := toUnsignedLong (Math_round x) in
  (0 <= N)%Z /\
  (IZR N <= IZR (Zpos m) * powerRZ 2 e + / 2 < IZR N + 1)%R.
Proof.
  intros Hx Hm HV.
  assert (He : (e <= -22)%Z).
  { destruct (Z.le_gt_cases e (-22)) as [|Hc]; [assumption|exfalso].
    replace e with (-21 + (e + 21))%Z in HV by lia.
    rewrite powerRZ_add in HV by lra.
    pose proof (powerRZ_2_ge_1 (e + 21) ltac:(lia)) as H1.
    assert (H2 : (4503599627370496 <= IZR (Zpos m))%R).
    { change 4503599627370496%R with (IZR (2 ^ 52)). apply IZR_le. lia. }
    assert (H3 : powerRZ 2 (-21) = (/ 2097152)%R).
    { change (-21)%Z with (- (21))%Z. rewrite powerRZ_neg', <- (IZR_pow2 21) by lia. reflexivity. }
    rewrite H3 in HV.
    assert (H4 : (IZR (Zpos m) * / 2097152 >= 2147483648)%R) by lra.
    assert (H5 : (0 < IZR (Zpos m) * / 2097152)%R) by lra.
    nra. }
  destruct e as [|k|k]; try lia.
  set (n := ((2 * Zpos m + 2 ^ Zpos k) / 2 ^ (Zpos k + 1))%Z).
  assert (Hround : Math_round x = Z2float n).
  { unfold Math_round. rewrite Hx. reflexivity. }
  assert (Hp : (0 < 2 ^ Zpos k)%Z) by (apply Z.pow_pos_nonneg; lia).
  assert (Hp1 : (2 ^ (Zpos k + 1) = 2 * 2 ^ Zpos k)%Z).
  { rewrite Z.pow_add_r by lia. lia. }
  assert (Hn1 : (n * (2 * 2 ^ Zpos k) <= 2 * Zpos m + 2 ^ Zpos k)%Z).
  { subst n. rewrite Hp1, Z.mul_comm. apply Z.mul_div_le. lia. }
  assert (Hn2 : (2 * Zpos m + 2 ^ Zpos k < (n + 1) * (2 * 2 ^ Zpos k))%Z).
  { subst n. rewrite Hp1.
    pose proof (Z.mul_succ_div_gt (2 * Zpos m + 2 ^ Zpos k) (2 * 2 ^ Zpos k) ltac:(lia)). lia. }
  assert (Hn0 : (0 <= n)%Z) by (subst n; apply Z.div_pos; lia).
  assert (HR : (IZR n <= IZR (Zpos m) * powerRZ 2 (Zneg k) + / 2 < IZR n + 1)%R).
  { change (Zneg k) with (- Zpos k)%Z. rewrite powerRZ_neg', <- IZR_pow2 by lia.
    apply IZR_le in Hn1. apply IZR_lt in Hn2, Hp.
    rewrite !mult_IZR, !plus_IZR, ?mult_IZR in Hn1, Hn2.
    rewrite (plus_IZR n 1) in Hn2.
    set (P := IZR (2 ^ Zpos k)) in *. set (M := IZR (Zpos m)) in *.
    assert (HPi : (0 < / P)%R) by (apply Rinv_0_lt_compat; assumption).
    assert (E : (M * / P + / 2 = (2 * M + P) * / (2 * P))%R) by (field; lra).
    rewrite E.
    assert (HPi2 : (0 < / (2 * P))%R) by (apply Rinv_0_lt_compat; lra).
    split.
    - apply Rmult_le_reg_r with (r := (2 * P)%R); [lra|].
      rewrite Rmult_assoc, Rinv_l by lra. lra.
    - apply Rmult_lt_reg_r with (r := (2 * P)%R); [lra|].
      rewrite Rmult_assoc, Rinv_l by lra. lra. }
  assert (Hn31 : (n < 2 ^ 32)%Z).
  { apply lt_IZR. change (IZR (2 ^ 32)) with 4294967296%R. lra. }
  cbv zeta. rewrite Hround.
  assert (HN : toUnsignedLong (Z2float n) = n)
    by (apply toUnsignedLong_Z2float; lia).
  rewrite HN. split; [assumption|exact HR].
Qed.

(** Numbers that are integers are ordered as the integers are. *)
Lemma Z2float_ltb (a b : Z) :
  (0 < a < 2 ^ 53)%Z -> (0 < b < 2 ^ 53)%Z ->
  (Z2float a <? Z2float b)%float = (a <? b)%Z.
Proof.
  intros Ha Hb.
  destruct (Z2float_spec a Ha) as (ma & ea & Hxa & Hma & Hea & Hva & _).
  destruct (Z2float_spec b Hb) as (mb & eb & Hxb & Hmb & Heb & Hvb & _).
  rewrite ltb_spec, Hxa, Hxb. unfold SFltb, SFcompare.
  assert (Hpa : (0 < 2 ^ (- ea))%Z) by (apply Z.pow_pos_nonneg; lia).
  assert (Hpb : (0 < 2 ^ (- eb))%Z) by (apply Z.pow_pos_nonneg; lia).
  change (2 ^ 52)%Z with 4503599627370496%Z in *.
  change (2 ^ 53)%Z with 9007199254740992%Z in *.
  destruct (Z.compare_spec ea eb) as [He|He|He].
  - subst eb. change (Pos.compare_cont Eq ma mb) with (Zpos ma ?= Zpos mb)%Z.
    rewrite Hva, Hvb.
    destruct (Z.compare_spec (a * 2 ^ (- ea)) (b * 2 ^ (- ea))) as [Hc|Hc|Hc];
      symmetry; [apply Z.ltb_ge|apply Z.ltb_lt|apply Z.ltb_ge]; nia.
  - symmetry. apply Z.ltb_lt.
    assert (E : (2 ^ (- ea) = 2 ^ (- ea - - eb - 1) * 2 * 2 ^ (- eb))%Z).
    { replace (- ea)%Z with ((- ea - - eb - 1) + 1 + (- eb))%Z at 1 by lia.
      rewrite !Z.pow_add_r by lia. reflexivity. }
    assert (HK : (0 < 2 ^ (- ea - - eb - 1))%Z) by (apply Z.pow_pos_nonneg; lia).
    rewrite E in Hva. nia.
  - symmetry. apply Z.ltb_ge.
    assert (E : (2 ^ (- eb) = 2 ^ (- eb - - ea - 1) * 2 * 2 ^ (- ea))%Z).
    { replace (- eb)%Z with ((- eb - - ea - 1) + 1 + (- ea))%Z at 1 by lia.
      rewrite !Z.pow_add_r by lia. reflexivity. }
    assert (HK : (0 < 2 ^ (- eb - - ea - 1))%Z) by (apply Z.pow_pos_nonneg; lia).
    rewrite E in Hvb. nia.
Qed.

(** [Math.round(a * (1200 / b))] for pixel counts [a <= b] with [b] above
    1200: an integer nearest to [1200 a / b]. *)
Lemma Math_round_scaled (a b : Z) :
  (0 < a <= b)%Z -> (1200 < b < 2 ^ 32)%Z ->
  let r := toUnsignedLong (Math_round (Z2float a * (Z2float 1200 / Z2float b))) in
  (0 <= r /\ 2 * r * b <= 2400 * a + b /\ 2400 * a <= 2 * r * b + b)%Z.
Proof.
  intros Ha Hb. change (2 ^ 32)%Z with 4294967296%Z in Hb.
  destruct (Z2float_spec a) as (ma & ea & Hxa & Hma & Hea & _ & Hva).
  { change (2 ^ 53)%Z with 9007199254740992%Z. lia. }
  destruct (Z2float_spec b) as (mb & eb & Hxb & Hmb & Heb & _ & Hvb).
  { change (2 ^ 53)%Z with 9007199254740992%Z. lia. }
  destruct (Z2float_spec 1200) as (mc & ec & Hxc & Hmc & Hec & _ & Hvc).
  { change (2 ^ 53)%Z with 9007199254740992%Z. lia. }
  destruct (div_error _ _ mc mb ec eb Hxc Hxb Hmc Hmb ltac:(lia))
    as (mq & eq & Hxq & Hmq & Heq & Hvq).
  destruct (mul_error _ _ ma mq ea eq Hxa Hxq Hma Hmq ltac:(lia))
    as (mp & ep & Hxp & Hmp & Hep & Hvp).
  cbv zeta in Hvq, Hvp. rewrite Hvc, Hvb in Hvq. rewrite Hva in Hvp.
  remember (IZR (Zpos mq) * powerRZ 2 eq)%R as Vq eqn:EVq.
  remember (IZR (Zpos mp) * powerRZ 2 ep)%R as Vp eqn:EVp.
  assert (HA : (1 <= IZR a)%R) by (apply IZR_le; lia).
  assert (HB : (1201 <= IZR b)%R) by (apply IZR_le; lia).
  assert (HAB : (IZR a <= IZR b)%R) by (apply IZR_le; lia).
  assert (HA32 : (IZR a <= 4294967296)%R) by (apply IZR_le; lia).
  set (A := IZR a) in *. set (B := IZR b) in *.
  set (c := (1200 / B)%R) in *.
  assert (Hc : (c * B = 1200)%R) by (subst c; field; lra).
  assert (Hc0 : (0 < c)%R).
  { subst c. apply Rdiv_lt_0_compat; lra. }
  set (eps := (/ 4503599627370496)%R) in *.
  assert (Heps : (0 < eps <= / 4503599627370496)%R) by (subst eps; lra).
  clearbody eps.
  clearbody c.
  assert (He1 : (0 < 1 - eps)%R) by lra.
  assert (Hq0 : (0 < Vq)%R).
  { apply Rlt_le_trans with (r2 := (c * (1 - eps))%R); [|lra].
    apply Rmult_lt_0_compat; lra. }
  (* the product, times [B] *)
  assert (HpB1 : (Vp * B <= 1200 * A * (1 + 3 * eps))%R).
  { assert (H0 : (A * Vq <= A * (c * (1 + eps)))%R) by (apply Rmult_le_compat_l; lra).
    assert (H1 : (Vp <= A * (c * (1 + eps)) * (1 + eps))%R).
    { apply Rle_trans with (r2 := (A * Vq * (1 + eps))%R); [lra|].
      apply Rmult_le_compat_r; lra. }
    assert (H2 : (Vp * B <= A * (c * (1 + eps)) * (1 + eps) * B)%R)
      by (apply Rmult_le_compat_r; lra).
    replace (A * (c * (1 + eps)) * (1 + eps) * B)%R
      with (A * (c * B) * ((1 + eps) * (1 + eps)))%R in H2 by ring.
    rewrite Hc in H2.
    assert (H3 : ((1 + eps) * (1 + eps) <= 1 + 3 * eps)%R) by nra.
    apply Rle_trans with (r2 := (A * 1200 * ((1 + eps) * (1 + eps)))%R); [assumption|].
    replace (1200 * A)%R with (A * 1200)%R by ring.
    apply Rmult_le_compat_l; lra. }
  assert (HpB2 : (1200 * A * (1 - 2 * eps) <= Vp * B)%R).
  { assert (H0 : (A * (c * (1 - eps)) <= A * Vq)%R) by (apply Rmult_le_compat_l; lra).
    assert (H1 : (A * (c * (1 - eps)) * (1 - eps) <= Vp)%R).
    { apply Rle_trans with (r2 := (A * Vq * (1 - eps))%R); [|lra].
      apply Rmult_le_compat_r; lra. }
    assert (H2 : (A * (c * (1 - eps)) * (1 - eps) * B <= Vp * B)%R)
      by (apply Rmult_le_compat_r; lra).
    replace (A * (c * (1 - eps)) * (1 - eps) * B)%R
      with (A * (c * B) * ((1 - eps) * (1 - eps)))%R in H2 by ring.
    rewrite Hc in H2.
    assert (H3 : (1 - 2 * eps <= (1 - eps) * (1 - eps))%R) by nra.
    apply Rle_trans with (r2 := (A * 1200 * ((1 - eps) * (1 - eps)))%R); [|assumption].
    replace (1200 * A)%R with (A * 1200)%R by ring.
    apply Rmult_le_compat_l; lra. }
  assert (HAe : (0 <= 2400 * A * eps <= / 256)%R).
  { split; [apply Rmult_le_pos; lra|].
    apply Rle_trans with (r2 := (2400 * 4294967296 * eps)%R).
    - apply Rmult_le_compat_r; lra.
    - lra. }
  assert (HVp : (Vp < 2147483648)%R).
  { apply Rmult_lt_reg_r with (r := B); [lra|].
    apply Rle_lt_trans with (r2 := (1200 * A * (1 + 3 * eps))%R); [assumption|].
    apply Rle_lt_trans with (r2 := (1200 * B + 1)%R); lra. }
  destruct (round_pixels _ mp ep Hxp Hmp) as [Hr0 Hr].
  { rewrite <- EVp. assumption. }
  rewrite <- EVp in Hr.
  set (r := toUnsignedLong (Math_round (Z2float a * (Z2float 1200 / Z2float b)))) in *.
  cbv zeta. fold r. split; [assumption|].
  split.
  - apply Z.lt_succ_r. apply lt_IZR.
    unfold Z.succ. repeat (rewrite ?plus_IZR, ?mult_IZR). fold A B. nra.
  - assert (H : (2400 * a - 1 < 2 * r * b + b)%Z); [|lia].
    apply lt_IZR. repeat (rewrite ?plus_IZR, ?minus_IZR, ?mult_IZR). fold A B. nra.
Qed.

Lemma MAX_SIZE_Z2float : MAX_SIZE = Z2float 1200.
Proof. reflexivity. Qed.

(** A size within 1200 by 1200 is left alone, a side of 0 included. *)
Lemma canvasSize_small (W H : Z) :
  (0 <= W <= 1200)%Z -> (0 <= H <= 1200)%Z -> canvasSize W H = (W, H).
Proof.
  intros HW HH.
  assert (Hcmp : forall n, (0 <= n <= 1200)%Z -> (MAX_SIZE <? Z2float n)%float = false).
  { intros n Hn. destruct (Z.eq_dec n 0) as [->|Hnz]; [reflexivity|].
    rewrite MAX_SIZE_Z2float, Z2float_ltb
      by (change (2 ^ 53)%Z with 9007199254740992%Z; lia).
    apply Z.ltb_ge. lia. }
  unfold canvasSize, scaleToMax. rewrite (Hcmp W HW), (Hcmp H HH). cbn [orb].
  rewrite !toUnsignedLong_Z2float by (change (2 ^ 32)%Z with 4294967296%Z; lia).
  reflexivity.
Qed.

(** The size of the canvas for an image of [W] by [H] pixels: the size of
    the image when no side is above 1200, otherwise 1200 for the longer side
    (the height when they are equal) and for the other an integer nearest to
    its length times [1200 / longer]. *)
Lemma canvasSize_spec (W H : Z) :
  (0 < W < 2 ^ 32)%Z -> (0 < H < 2 ^ 32)%Z ->
  (W <= 1200 -> H <= 1200 -> canvasSize W H = (W, H))%Z /\
  (1200 < W \/ 1200 < H -> H < W ->
   exists h', canvasSize W H = (1200, h') /\
     0 <= h' /\ 2 * h' * W <= 2400 * H + W /\ 2400 * H <= 2 * h' * W + W)%Z /\
  (1200 < W \/ 1200 < H -> W <= H ->
   exists w', canvasSize W H = (w', 1200) /\
     0 <= w' /\ 2 * w' * H <= 2400 * W + H /\ 2400 * W <= 2 * w' * H + H)%Z.
Proof.
  intros HW HH. change (2 ^ 32)%Z with 4294967296%Z in *.
  assert (HW53 : (0 < W < 2 ^ 53)%Z) by (change (2 ^ 53)%Z with 9007199254740992%Z; lia).
  assert (HH53 : (0 < H < 2 ^ 53)%Z) by (change (2 ^ 53)%Z with 9007199254740992%Z; lia).
  assert (H12 : (0 < 1200 < 2 ^ 53)%Z) by (change (2 ^ 53)%Z with 9007199254740992%Z; lia).
  unfold canvasSize, scaleToMax. rewrite MAX_SIZE_Z2float.
  rewrite !Z2float_ltb by assumption.
  split; [|split].
  - intros Hw Hh.
    destruct (Z.ltb_spec 1200 W); [lia|]. destruct (Z.ltb_spec 1200 H); [lia|].
    cbn [orb]. rewrite !toUnsignedLong_Z2float by (change (2 ^ 32)%Z with 4294967296%Z; lia).
    reflexivity.
  - intros Hbig Hlt.
    assert (Hor : (1200 <? W)%Z || (1200 <? H)%Z = true).
    { apply orb_true_iff. destruct Hbig; [left|right]; apply Z.ltb_lt; assumption. }
    rewrite Hor. destruct (Z.ltb_spec H W); [|lia].
    rewrite (toUnsignedLong_Z2float 1200) by (change (2 ^ 32)%Z with 4294967296%Z; lia).
    eexists. split; [reflexivity|].
    apply (Math_round_scaled H W); change (2 ^ 32)%Z with 4294967296%Z; lia.
  - intros Hbig Hle.
    assert (Hor : (1200 <? W)%Z || (1200 <? H)%Z = true).
    { apply orb_true_iff. destruct Hbig; [left|right]; apply Z.ltb_lt; assumption. }
    rewrite Hor. destruct (Z.ltb_spec H W); [lia|].
    rewrite (toUnsignedLong_Z2float 1200) by (change (2 ^ 32)%Z with 4294967296%Z; lia).
    eexists. split; [reflexivity|].
    apply (Math_round_scaled W H); change (2 ^ 32)%Z with 4294967296%Z; lia.
Qed.


(** [Math.round] where it differs from the floor of the sum [x + 0.5]
    rounded to binary64, on ties, below zero and on what is not finite. *)
Lemma Math_round_examples :
  Math_round 0x1.fffffffffffffp-2 = 0%float /\ Math_round 0.5 = 1%float /\
  Math_round 2.5 = 3%float /\ Math_round (-2.5) = (-2)%float /\
  Math_round (-0.5) = (-0)%float /\ Math_round 0x1.c1fffffffffffp+6 = 112%float /\
  Math_round infinity = infinity /\ Math_round 0x1p+60 = 0x1p+60%float.
Proof. repeat split; reflexivity. Qed.

(** The product of the rounded quotient is not the quotient of the product:
    1760 by 165 has 112.5 for its exact scaled height and gets 112, and
    117600 by 49 has 0.5 and gets 0, while 2400 by 1 has 0.5 and gets 1. *)
Lemma canvasSize_examples :
  canvasSize 4000 2000 = (1200, 600)%Z /\ canvasSize 800 600 = (800, 600)%Z /\
  canvasSize 1760 165 = (1200, 112)%Z /\ canvasSize 117600 49 = (1200, 0)%Z /\
  canvasSize 2400 1 = (1200, 1)%Z /\ canvasSize 4801 2 = (1200, 0)%Z /\
  canvasSize 2000 2000 = (1200, 1200)%Z.
Proof. vm_compute. repeat split. Qed.

Lemma canvasSize_bounds (W H : Z) :
  (0 < W < 2 ^ 32)%Z -> (0 < H < 2 ^ 32)%Z ->
  (0 <= fst (canvasSize W H) <= W /\ 0 <= snd (canvasSize W H) <= H /\
   fst (canvasSize W H) <= 1200 /\ snd (canvasSize W H) <= 1200 /\
   (H <= W -> snd (canvasSize W H) <= fst (canvasSize W H)) /\
   (W <= H -> fst (canvasSize W H) <= snd (canvasSize W H)))%Z.
Proof.
  intros HW HH. destruct (canvasSize_spec W H HW HH) as (Hsmall & Hwide & Htall).
  destruct (Z.le_gt_cases W 1200) as [Hw|Hw]; destruct (Z.le_gt_cases H 1200) as [Hh|Hh].
  - rewrite (Hsmall Hw Hh). cbn [fst snd]. lia.
  - destruct (Htall ltac:(lia) ltac:(lia)) as (w' & -> & Hr). cbn [fst snd]. nia.
  - destruct (Hwide ltac:(lia) ltac:(lia)) as (h' & -> & Hr). cbn [fst snd]. nia.
  - destruct (Z.lt_ge_cases H W) as [Hlt|Hge].
    + destruct (Hwide ltac:(lia) Hlt) as (h' & -> & Hr). cbn [fst snd]. nia.
    + destruct (Htall ltac:(lia) Hge) as (w' & -> & Hr). cbn [fst snd]. nia.
Qed.

Section Compression.
Context {Env Blob : Type} `{Collaborators Env Blob}.

(** C8. For an image that decodes, [compressImage] returns what the canvas
    encodes as image/webp at quality 0.8, and throws "Compression failed"
    when the canvas encodes nothing.  The canvas has the size of the image
    when no side is above 1200; otherwise its longer side is exactly 1200 and
    its other side is an integer nearest to the length of that side times
    1200 over the longer one, which may be 0. *)
Theorem compressImage_canvas (file : File.t) (width height : Z) (w : World Env) :
  Image_load file = Some (width, height) ->
  (0 < width < 2 ^ 32)%Z -> (0 < height < 2 ^ 32)%Z ->
  exists width' height' : Z,
    compressImage file w =
      (match canvas_toBlob file width' height' "image/webp" QUALITY with
       | Some blob => Ok blob
       | None => Throw (JsError "Compression failed")
       end, w) /\
    (Z.max width height <= 1200 -> width' = width /\ height' = height)%Z /\
    (1200 < Z.max width height ->
       Z.max width' height' = 1200 /\ 0 <= Z.min width' height' /\
       if (height <? width)%Z
       then width' = 1200 /\ 2 * Z.abs (height' * width - 1200 * height) <= width
       else height' = 1200 /\ 2 * Z.abs (width' * height - 1200 * width) <= height)%Z.
Proof.
  intros Hload HW HH.
  exists (fst (canvasSize width height)), (snd (canvasSize width height)). split.
  - unfold compressImage. rewrite Hload.
    destruct (canvasSize width height) as [w' h']. cbn [fst snd].
    destruct (canvas_toBlob file w' h' "image/webp" QUALITY); reflexivity.
  - pose proof (canvasSize_bounds width height HW HH) as Hb.
    destruct (canvasSize_spec width height HW HH) as (Hsmall & Hwide & Htall).
    split.
    + intros Hmax. rewrite (Hsmall ltac:(lia) ltac:(lia)). split; reflexivity.
    + intros Hmax. destruct (Z.ltb_spec height width) as [Hlt|Hge].
      * destruct (Hwide ltac:(lia) Hlt) as (h' & E & Hr). rewrite E in Hb |- *.
        cbn [fst snd] in *. lia.
      * destruct (Htall ltac:(lia) Hge) as (w' & E & Hr). rewrite E in Hb |- *.
        cbn [fst snd] in *. lia.
Qed.
End Compression.

(** C8, the scenario of the specification: 4000 by 2000 is drawn on 1200 by
    600, the ratio 2:1 kept, and that is what is encoded. *)
Lemma compressImage_canvas_witness :
  (Image_load (Fake.image "A") = Some (4000, 2000)%Z /\
   (0 < 4000 < 2 ^ 32)%Z /\ (0 < 2000 < 2 ^ 32)%Z) /\
  compressImage (Fake.image "A") (Fake.world Fake.empty)
    = (Ok (1200, 600)%Z, Fake.world Fake.empty) /\
  exists w' h' : Z,
    compressImage (Fake.image "A") (Fake.world Fake.empty) =
      (match canvas_toBlob (Fake.image "A") w' h' "image/webp" QUALITY with
       | Some blob => Ok blob
       | None => Throw (JsError "Compression failed")
       end, Fake.world Fake.empty) /\
    (Z.max 4000 2000 <= 1200 -> w' = 4000 /\ h' = 2000)%Z /\
    (1200 < Z.max 4000 2000 ->
       Z.max w' h' = 1200 /\ 0 <= Z.min w' h' /\
       w' = 1200 /\ 2 * Z.abs (h' * 4000 - 1200 * 2000) <= 4000)%Z.
Proof.
  split; [repeat split; reflexivity|]. split; [reflexivity|].
  exact (compressImage_canvas (Fake.image "A") 4000 2000 (Fake.world Fake.empty)
           eq_refl (conj eq_refl eq_refl) (conj eq_refl eq_refl)).
Defined.

(** C8, as stated, fails: not every image that decodes has an output.  A
    strip of 4801 by 2 gets a canvas of 1200 by 0, a canvas without pixels
    encodes nothing, and [compressImage] throws. *)
Lemma compress_no_output_counterexample :
  Image_load (Fake.strip "tira.png") = Some (4801, 2)%Z /\
  canvasSize 4801 2 = (1200, 0)%Z /\
  canvas_toBlob (Fake.strip "tira.png") 1200 0 "image/webp" QUALITY = None /\
  compressImage (Fake.strip "tira.png") (Fake.world Fake.empty)
    = (Throw (JsError "Compression failed"), Fake.world Fake.empty).
Proof. repeat split; reflexivity. Qed.

(** ** The image pipeline *)

Lemma Forall2_map_if {A : Type} (c : A -> bool) (f : A -> A) (l : list A) :
  Forall2 (fun a b => if c a then b = f a else b = a) l
          (map (fun a => if c a then f a else a) l).
Proof.
  induction l as [|a l IH]; simpl; constructor; auto.
  destruct (c a); reflexivity.
Qed.

Lemma firstRejection_In {A : Type} (ps : list (nat * result A)) :
  Exists (fun p => exists err, snd p = Throw err) ps ->
  exists t err, firstRejection ps = Some (t, err) /\ In (t, Throw err) ps.
Proof.
  induction ps as [|[t [a|err]] rest IH]; intros Hex.
  - inversion Hex.
  - inversion Hex as [? ? [e He]|? ? Hrest]; subst; [discriminate|].
    destruct (IH Hrest) as (t' & err' & Hf & Hin).
    exists t', err'. simpl. auto.
  - simpl. destruct (firstRejection rest) as [[t' err']|] eqn:Hf.
    + destruct (t' <? t)%nat.
      * assert (Hrest : Exists (fun p => exists e, snd p = @Throw A e) rest).
        { clear - Hf. induction rest as [|[t1 [a|e]] rest IH]; simpl in Hf.
          - discriminate.
          - right. apply IH, Hf.
          - left. exists e. reflexivity. }
        destruct (IH Hrest) as (t2 & e2 & Hf2 & Hin).
        injection Hf2 as E1 E2. subst t2 e2. exists t', err'. auto.
      * exists t, err. auto.
    + exists t, err. auto.
Qed.

Section PipelineProperties.
Context {Env Blob : Type} `{Collaborators Env Blob}.



(** *** The loop over the selected files *)

Lemma uploadFiles_skip activeCategory file rest st (w : World Env) :
  String.prefix "image/" (File.type file) = false ->
  uploadFiles activeCategory (file :: rest) st w = uploadFiles activeCategory rest st w.
Proof. intros Hty. simpl. rewrite Hty. reflexivity. Qed.

Lemma uploadFiles_ok activeCategory file rest st (w w1 : World Env) record :
  String.prefix "image/" (File.type file) = true ->
  uploadImage activeCategory file w = (Ok record, w1) ->
  uploadFiles activeCategory (file :: rest) st w =
  uploadFiles activeCategory rest
    (setCategories (prependImage activeCategory record) st) w1.
Proof. intros Hty Hup. simpl. rewrite Hty, Hup. reflexivity. Qed.

Lemma uploadFiles_throw activeCategory file rest st (w w1 : World Env) err :
  String.prefix "image/" (File.type file) = true ->
  uploadImage activeCategory file w = (Throw err, w1) ->
  uploadFiles activeCategory (file :: rest) st w = (Throw err, st, w1).
Proof. intros Hty Hup. simpl. rewrite Hty, Hup. reflexivity. Qed.

Lemma uploadFiles_app activeCategory before rest :
  forall st (w : World Env) st1 w1,
  uploadFiles activeCategory before st w = (Ok tt, st1, w1) ->
  uploadFiles activeCategory (before ++ rest)%list st w =
  uploadFiles activeCategory rest st1 w1.
Proof.
  induction before as [|file before IH]; intros st w st1 w1 Hrun; simpl in *.
  - injection Hrun as <- <-. reflexivity.
  - destruct (negb _); [apply IH, Hrun|].
    destruct (uploadImage activeCategory file w) as [[record|err] w0].
    + apply IH, Hrun.
    + discriminate.
Qed.

Lemma uploadFiles_erase activeCategory file before after :
  String.prefix "image/" (File.type file) = false ->
  forall st (w : World Env),
  uploadFiles activeCategory (before ++ file :: after)%list st w =
  uploadFiles activeCategory (before ++ after)%list st w.
Proof.
  intros Hty. induction before as [|f before IH]; intros st w.
  - apply uploadFiles_skip, Hty.
  - simpl. destruct (negb _); [apply IH|].
    destruct (uploadImage activeCategory f w) as [[record|err] w0];
      [apply IH|reflexivity].
Qed.

(** A file that does not decode: [compressImage] rejects before anything
    is asked of the collaborators. *)
Lemma uploadImage_undecodable category file (w : World Env) :
  Image_load file = None ->
  uploadImage category file w = (Throw (JsError "Failed to load image"), w).
Proof.
  intros Hload. unfold uploadImage, bind, compressImage. rewrite Hload.
  reflexivity.
Qed.

(** C2. A successful upload of one image file puts its record at the front
    of the images of the active category, whose other fields stay, and
    leaves every other category as it was. *)
Theorem upload_prepends (active : string) (file : File.t)
    (record : ImageRecord.t) (st st' : AppState) (w w1 w' : World Env) :
  truthy (activeCategory st) = Some active ->
  String.prefix "image/" (File.type file) = true ->
  uploadImage active file w = (Ok record, w1) ->
  handleFileChange (Some [file]) st w = (st', w') ->
  Forall2 (fun cat cat' =>
             if CategoryData.id cat =? active
             then cat' = CategoryData.with_images
                           (record :: CategoryData.images cat) cat
             else cat' = cat)
          (categories st) (categories st') /\
  w' = w1 /\ error st' = error st /\ isUploading st' = false.
Proof.
  intros Hact Hty Hup Hrun. unfold handleFileChange in Hrun.
  rewrite Hact in Hrun.
  rewrite uploadFiles_ok with (record := record) (w1 := w1) in Hrun by assumption.
  simpl in Hrun.
  injection Hrun as <- <-. cbn [categories error isUploading setIsUploading setCategories].
  repeat split.
  apply (Forall2_map_if (fun cat => CategoryData.id cat =? active)).
Qed.

(** C7. A file whose type does not start with "image/" takes no part in a
    selection: the handler does exactly what it does on the selection
    without it.  Selected alone, it leaves the world as it was, no call
    made, and the state too, but for [isUploading], which is false
    afterwards. *)
Theorem non_image_is_skipped (file : File.t) (before after : list File.t)
    (st : AppState) (w : World Env) :
  String.prefix "image/" (File.type file) = false ->
  handleFileChange (Some (before ++ file :: after)%list) st w =
    handleFileChange (Some (before ++ after)%list) st w /\
  handleFileChange (Some [file]) st w =
    (match truthy (activeCategory st) with
     | Some _ => setIsUploading false st
     | None => st
     end, w) /\
  (isUploading st = false -> handleFileChange (Some [file]) st w = (st, w)).
Proof.
  intros Hty.
  assert (Halone : handleFileChange (Some [file]) st w =
            (match truthy (activeCategory st) with
             | Some _ => setIsUploading false st
             | None => st
             end, w)).
  { unfold handleFileChange. destruct (truthy (activeCategory st)); [|reflexivity].
    rewrite uploadFiles_skip by exact Hty. reflexivity. }
  split; [|split].
  - unfold handleFileChange. destruct (truthy (activeCategory st)); [|reflexivity].
    rewrite uploadFiles_erase by exact Hty. reflexivity.
  - exact Halone.
  - intros Hflag. rewrite Halone.
    destruct (truthy (activeCategory st)); [|reflexivity].
    destruct st; simpl in *; subst; reflexivity.
Qed.

(** Any failure of [uploadImage] ends the loop: what the files before it
    did stays, the files after it are not looked at, and the message is
    set. *)
Lemma batch_stops_at_throw (active : string) (before after : list File.t)
    (file : File.t) (st st1 : AppState) (w w1 w2 : World Env) (err : thrown) :
  truthy (activeCategory st) = Some active ->
  uploadFiles active before (setIsUploading true st) w = (Ok tt, st1, w1) ->
  String.prefix "image/" (File.type file) = true ->
  uploadImage active file w1 = (Throw err, w2) ->
  handleFileChange (Some (before ++ file :: after)%list) st w =
    (setIsUploading false
       (setError (Some (errorMessage err "Error al subir imagen")) st1),
     emit (EvSetError (errorMessage err "Error al subir imagen")) w2).
Proof.
  intros Hact Hbefore Hty Hup. unfold handleFileChange. rewrite Hact.
  rewrite uploadFiles_app with (st1 := st1) (w1 := w1) by exact Hbefore.
  rewrite uploadFiles_throw with (err := err) (w1 := w2) by assumption.
  reflexivity.
Qed.

(** C6, as the code has it.  A file of the selection that does not decode
    ends the batch: the uploads of the files before it stay, in order; no
    file after it is processed, and nothing is asked of the collaborators
    for it or for them; one message, "Failed to load image", is set. *)
Theorem batch_stops_at_decode_error (active : string)
    (before after : list File.t) (file : File.t) (st st1 : AppState)
    (w w1 : World Env) :
  truthy (activeCategory st) = Some active ->
  uploadFiles active before (setIsUploading true st) w = (Ok tt, st1, w1) ->
  String.prefix "image/" (File.type file) = true ->
  Image_load file = None ->
  handleFileChange (Some (before ++ file :: after)%list) st w =
    (setIsUploading false (setError (Some "Failed to load image") st1),
     emit (EvSetError "Failed to load image") w1).
Proof.
  intros Hact Hbefore Hty Hload.
  apply (batch_stops_at_throw active before after file st st1 w w1 w1
           (JsError "Failed to load image") Hact Hbefore Hty).
  apply uploadImage_undecodable, Hload.
Qed.

(** *** The first load *)

Lemma fetchAll_log ids : forall w : World Env,
  log (snd (fetchAll ids w)) = (log w ++ map EvDbSelect ids)%list.
Proof.
  induction ids as [|c ids IH]; intros w; simpl.
  - now rewrite app_nil_r.
  - unfold fetchImagesByCategory at 1.
    destruct (images_select c (env w)) as [[t r] e'].
    specialize (IH {| env := e'; log := (log w ++ [EvDbSelect c])%list |}).
    destruct (fetchAll ids _) as [ps w2]. simpl in *.
    rewrite IH, <- app_assoc. reflexivity.
Qed.

(** C10. When the select of any category fails, the first load leaves the
    categories as they were, so empty when they were empty; and unless the
    view is gone by then ([cancelled]), it sets one message, that of a
    select that failed, and ends the loading.  Every select has been
    issued by then and [setError] is called once. *)
Theorem load_failure_one_error (cancelled : bool) (st : AppState) (w : World Env) :
  let ids := map CategoryData.id CATEGORIES in
  let ps := fst (fetchAll ids w) in
  Exists (fun p => exists err, snd p = Throw err) ps ->
  let (st', w') := load cancelled st w in
  categories st' = categories st /\
  (Forall (fun cat => CategoryData.images cat = []) (categories st) ->
   Forall (fun cat => CategoryData.images cat = []) (categories st')) /\
  if cancelled then
    st' = st /\ log w' = (log w ++ map EvDbSelect ids)%list
  else
    exists t err,
      In (t, Throw err) ps /\
      error st' = Some (errorMessage err "Error al cargar datos") /\
      isLoading st' = false /\
      log w' = (log w ++ map EvDbSelect ids ++
                [EvSetError (errorMessage err "Error al cargar datos")])%list.
Proof.
  intros ids ps Hfail. unfold load. fold ids.
  pose proof (fetchAll_log ids w) as Hlog.
  subst ps. destruct (fetchAll ids w) as [ps w1]. simpl in *.
  destruct (firstRejection_In ps Hfail) as (t & err & Hfirst & Hin).
  unfold Promise_all. rewrite Hfirst.
  destruct cancelled; simpl.
  - auto.
  - split; [reflexivity|]. split; [auto|].
    exists t, err. rewrite Hlog, <- app_assoc. auto.
Qed.
End PipelineProperties.

(** ** The handlers on the backend in memory *)

(** C2, on the scenario of the specification: "campo" starts empty;
    uploading A gives [A], uploading B gives [B, A], deleting A gives [B]. *)
Lemma upload_prepends_witness :
  (truthy (activeCategory onCampo) = Some "campo" /\
   String.prefix "image/" (File.type (Fake.image "A")) = true /\
   fst (uploadImage "campo" (Fake.image "A") (Fake.world Fake.empty)) = Ok recordA) /\
  (Forall2 (fun cat cat' =>
              if CategoryData.id cat =? "campo"
              then cat' = CategoryData.with_images (recordA :: CategoryData.images cat) cat
              else cat' = cat)
           (categories onCampo) (categories (fst afterA)) /\
   error (fst afterA) = error onCampo /\ isUploading (fst afterA) = false) /\
  imagesOf "campo" onCampo = [] /\
  imagesOf "campo" (fst afterA) = [recordA] /\
  imagesOf "campo" (fst afterAB) = [recordB; recordA] /\
  imagesOf "campo" (fst (handleDeleteImage "campo" recordA (fst afterAB) (snd afterAB)))
    = [recordB].
Proof.
  split; [repeat split; reflexivity|].
  split; [|repeat split; reflexivity].
  pose proof (upload_prepends "campo" (Fake.image "A") recordA onCampo (fst afterA)
                (Fake.world Fake.empty)
                (snd (uploadImage "campo" (Fake.image "A") (Fake.world Fake.empty)))
                (snd afterA) eq_refl eq_refl eq_refl eq_refl) as (Hcats & _ & Herr & Hup).
  exact (conj Hcats (conj Herr Hup)).
Defined.


(** C7, on a PDF selected alone and between two images. *)
Lemma non_image_is_skipped_witness :
  String.prefix "image/" (File.type (Fake.document "acta.pdf")) = false /\
  handleFileChange (Some [Fake.document "acta.pdf"]) onCampo (Fake.world Fake.empty)
    = (onCampo, Fake.world Fake.empty) /\
  handleFileChange
    (Some [Fake.image "A"; Fake.document "acta.pdf"; Fake.image "B"])
    onCampo (Fake.world Fake.empty)
  = handleFileChange (Some [Fake.image "A"; Fake.image "B"])
      onCampo (Fake.world Fake.empty).
Proof.
  split; [reflexivity|].
  pose proof (non_image_is_skipped (Fake.document "acta.pdf") [] [] onCampo
                (Fake.world Fake.empty) eq_refl) as (_ & _ & Halone).
  pose proof (non_image_is_skipped (Fake.document "acta.pdf")
                [Fake.image "A"] [Fake.image "B"] onCampo
                (Fake.world Fake.empty) eq_refl) as (Hbetween & _).
  exact (conj (Halone eq_refl) Hbetween).
Defined.

(** C6, as stated, fails.  B alone is uploaded; selected after a file that
    does not decode, B is not: nothing is asked of the collaborators and the
    images of "campo" stay empty. *)
Lemma batch_continues_counterexample :
  map ImageRecord.storage_path
    (imagesOf "campo"
       (fst (handleFileChange (Some [Fake.image "B"]) onCampo (Fake.world Fake.empty))))
    = ["campo/uuid-0.webp"] /\
  String.prefix "image/" (File.type (Fake.undecodable "A")) = true /\
  Image_load (Fake.undecodable "A") = None /\
  imagesOf "campo"
    (fst (handleFileChange (Some [Fake.undecodable "A"; Fake.image "B"])
            onCampo (Fake.world Fake.empty)))
    = [] /\
  log (snd (handleFileChange (Some [Fake.undecodable "A"; Fake.image "B"])
              onCampo (Fake.world Fake.empty)))
    = [EvSetError "Failed to load image"].
Proof. repeat split; reflexivity. Qed.

(** C6, as the code has it, on the selection A, a file that does not decode,
    B: A is uploaded, B is not. *)
Lemma batch_stops_at_decode_error_witness :
  let bad := Fake.undecodable "roto.png" in
  let after := handleFileChange (Some [Fake.image "A"; bad; Fake.image "B"])
                 onCampo (Fake.world Fake.empty) in
  (String.prefix "image/" (File.type bad) = true /\ Image_load bad = None) /\
  after = (setIsUploading false
             (setError (Some "Failed to load image") (setIsUploading true (fst afterA))),
           emit (EvSetError "Failed to load image") (snd afterA)) /\
  imagesOf "campo" (fst after) = [recordA].
Proof.
  split; [split; reflexivity|]. split; [|reflexivity].
  exact (batch_stops_at_decode_error "campo" [Fake.image "A"] [Fake.image "B"]
           (Fake.undecodable "roto.png") onCampo
           (setIsUploading true (fst afterA)) (Fake.world Fake.empty) (snd afterA)
           eq_refl eq_refl eq_refl eq_refl).
Defined.

(** C10, on a backend whose selects of "anuncios" and "limpieza" fail, the
    second answering first: every select is issued, the categories stay
    empty and the one message is that of "limpieza". *)
Lemma load_failure_one_error_witness :
  let e := {| Fake.rows := [recordA]; Fake.objects := []; Fake.next := 2;
              Fake.broken := ["images.select:anuncios"; "images.select:limpieza"];
              Fake.delay := [("anuncios", 7%nat); ("limpieza", 3%nat)] |} in
  let after := load false appInit (Fake.world e) in
  map (fun p => match snd p with Ok _ => true | Throw _ => false end)
      (fst (fetchAll (map CategoryData.id CATEGORIES) (Fake.world e)))
    = [true; false; true; false] /\
  categories (fst after) = CATEGORIES /\
  Forall (fun cat => CategoryData.images cat = []) (categories (fst after)) /\
  error (fst after) = Some "images.select:limpieza refused" /\
  log (snd after) = [EvDbSelect "campo"; EvDbSelect "anuncios";
                     EvDbSelect "reuniones"; EvDbSelect "limpieza";
                     EvSetError "images.select:limpieza refused"].
Proof.
  split; [reflexivity|].
  pose proof (load_failure_one_error false appInit
    (Fake.world {| Fake.rows := [recordA]; Fake.objects := []; Fake.next := 2;
                   Fake.broken := ["images.select:anuncios"; "images.select:limpieza"];
                   Fake.delay := [("anuncios", 7%nat); ("limpieza", 3%nat)] |})) as Hload.
  cbv zeta in Hload.
  assert (Hfail : Exists (fun p : nat * result (list ImageRecord.t) =>
                            exists err, snd p = Throw err)
    (fst (fetchAll (map CategoryData.id CATEGORIES)
       (Fake.world {| Fake.rows := [recordA]; Fake.objects := []; Fake.next := 2;
                      Fake.broken := ["images.select:anuncios"; "images.select:limpieza"];
                      Fake.delay := [("anuncios", 7%nat); ("limpieza", 3%nat)] |})))).
  { right. left. eexists. reflexivity. }
  specialize (Hload Hfail).
  destruct (load false appInit _) as [st' w'] eqn:Hrun in Hload.
  destruct Hload as (Hcats & Hempty & _).
  injection Hrun as <- <-.
  split; [exact Hcats|]. split; [|split; reflexivity].
  apply Hempty. repeat constructor.
Defined.

(** * More of the zoom handlers *)

Lemma ltb_leb_false a b : (a <? b)%float = true -> (b <=? a)%float = false.
Proof.
  rewrite ltb_spec, leb_spec. unfold SFltb, SFleb.
  rewrite (SFcompare_antisym (Prim2SF a) (Prim2SF b)).
  destruct (SFcompare _ _) as [[]|]; simpl; congruence.
Qed.

Lemma leb_1_pos s : (1 <=? s)%float = true -> (0 <? s)%float = true.
Proof.
  rewrite leb_spec, ltb_zero_spec.
  change (Prim2SF 1) with (S754_finite false 4503599627370496 (-52)).
  destruct (Prim2SF s) as [b|b| |b m e]; cbv [SFleb SFcompare];
    try congruence; destruct b; congruence.
Qed.

Lemma leb_5_finite s : (s <=? 5)%float = true -> (s <? infinity)%float = true.
Proof.
  rewrite leb_spec, ltb_infinity_spec.
  change (Prim2SF 5) with (S754_finite false 5629499534213120 (-50)).
  destruct (Prim2SF s) as [b|b| |b m e]; cbv [SFleb SFcompare];
    try congruence; try tauto; destruct b; congruence.
Qed.

(** A positive number over a zero or a positive finite number is a number. *)
Lemma div_pos_num a b :
  (0 <? a)%float = true -> (0 <=? b)%float = true -> (b <? infinity)%float = true ->
  SFnum (Prim2SF (a / b)).
Proof.
  rewrite ltb_zero_spec, leb_zero_spec, ltb_infinity_spec. intros Ha Hb Hb'.
  rewrite div_spec. unfold SF64div.
  destruct (Prim2SF a) as [sa|sa| |sa ma ea], (Prim2SF b) as [sb|sb| |sb mb eb];
    simpl in *; try tauto; subst; try discriminate; try exact I.
  pose proof (SFdiv_core_nonneg ma ea mb eb) as H.
  destruct (SFdiv_core_binary _ _ _ _ _ _) as [[mz ez] lz].
  pose proof (binary_round_aux_signed false mz ez lz H) as Hs.
  destruct (binary_round_aux _ _ _ _ _ _); simpl in *; tauto.
Qed.

(** A positive finite number times a number is a number. *)
Lemma mul_finite_num a b :
  (0 <? a)%float = true -> (a <? infinity)%float = true -> SFnum (Prim2SF b) ->
  SFnum (Prim2SF (a * b)).
Proof.
  rewrite ltb_zero_spec, ltb_infinity_spec. intros Ha Ha' Hb.
  rewrite mul_spec. unfold SF64mul.
  destruct (Prim2SF a) as [sa|sa| |sa ma ea], (Prim2SF b) as [sb|sb| |sb mb eb];
    simpl in *; try tauto; subst; try discriminate; try exact I.
  pose proof (binary_round_aux_signed (xorb false sb) (Z.pos (ma * mb)) (ea + eb)
                loc_Exact ltac:(lia)) as Hs.
  destruct (binary_round_aux _ _ _ _ _ _); simpl in *; tauto.
Qed.

Lemma pinchScale_inRange st dist :
  inRange (pinchStartScaleRef st) ->
  (0 <=? pinchStartDistRef st)%float = true ->
  (pinchStartDistRef st <? infinity)%float = true ->
  (0 <? dist)%float = true ->
  inRange (pinchScale st dist).
Proof.
  intros [H1 H5] Hd Hd' Hdist. unfold pinchScale.
  assert (Hnum : is_nan (pinchStartScaleRef st * (dist / pinchStartDistRef st))%float
                 = false).
  { apply is_nan_spec, mul_finite_num;
      auto using leb_1_pos, leb_5_finite, div_pos_num. }
  rewrite min_max_clamp by exact Hnum. apply clamp_range, Hnum.
Qed.

Lemma gestureRun_invariant (P : ZoomState -> Prop) (ok : gesture -> Prop) :
  (forall g st, ok g -> P st -> P (gestureStep g st)) ->
  forall gs st, Forall ok gs -> P st -> P (gestureRun gs st).
Proof.
  intros Hstep gs. induction gs as [|g gs IH]; intros st Hok HP; simpl.
  - exact HP.
  - inversion Hok; subst. apply IH; auto.
Qed.

Lemma gestureStep_recentred g st : recentred st -> recentred (gestureStep g st).
Proof.
  unfold recentred. intros Hst. destruct g as [now|touches|touches|]; simpl.
  - unfold handleDoubleTap. destruct (_ <? _)%Z; [|exact Hst].
    destruct (1 <? scale st)%float; reflexivity.
  - destruct touches as [|t0 [|t1 [|t2 rest]]]; simpl; try exact Hst.
    destruct (1 <? scale st)%float; exact Hst.
  - destruct touches as [|t0 [|t1 [|t2 rest]]]; simpl; try exact Hst.
    + destruct (isPanningRef st); simpl; [|exact Hst].
      destruct (1 <? scale st)%float eqn:E; simpl; [|exact Hst].
      rewrite (ltb_leb_false 1 (scale st) E). discriminate.
    + destruct (pinchScale st (touchDist t0 t1) <=? 1)%float eqn:E; simpl.
      * reflexivity.
      * congruence.
  - unfold handleTouchEnd. destruct (scale st <=? 1)%float eqn:E; simpl.
    + reflexivity.
    + congruence.
Qed.

(** X1. Whatever taps, touch starts, moves and ends come, in whatever order
    and with whatever touches, a state in which a scale of at most 1 has the
    pan offset (0,0) is followed only by such states; the initial state is
    one. *)
Theorem gestures_keep_recentred (gs : list gesture) (st : ZoomState) :
  recentred st -> recentred (gestureRun gs st).
Proof.
  intros Hst.
  apply (gestureRun_invariant recentred (fun _ => True)); auto.
  - intros g s _. apply gestureStep_recentred.
  - clear. induction gs; constructor; auto.
Qed.

Lemma gestures_keep_recentred_witness :
  let gs := [TouchStart [touch 0 0; touch 100 0]; TouchMove [touch 0 0; touch 300 0];
             TouchEnd; TouchStart [touch 50 50]; TouchMove [touch 80 10]; TouchEnd;
             TouchStart [touch 0 0; touch 300 0]; TouchMove [touch 0 0; touch 30 0]] in
  recentred zoomInit /\
  map (fun n => (scale (gestureRun (firstn n gs) zoomInit),
                 position (gestureRun (firstn n gs) zoomInit))) [2; 5; 8]%nat
  = [(3%float, origin);
     (3%float, {| Point.x := 30; Point.y := -40 |});
     (1%float, origin)] /\
  recentred (gestureRun gs zoomInit).
Proof.
  split; [intros _; reflexivity|]. split; [reflexivity|].
  apply gestures_keep_recentred. intros _. reflexivity.
Defined.

Lemma gestureStep_pinchReady g st :
  properGesture g -> pinchReady st -> pinchReady (gestureStep g st).
Proof.
  intros Hg Hst.
  assert (Hmove : forall t0 t1, (0 <? touchDist t0 t1)%float = true ->
                    inRange (pinchScale st (touchDist t0 t1)))
    by (intros; apply pinchScale_inRange; apply Hst || assumption).
  unfold pinchReady, inRange in *. destruct Hst as ((Hlo & Hhi) & (Hlo0 & Hhi0) & Hd & Hd').
  destruct g as [now|touches|touches|]; simpl.
  - unfold handleDoubleTap. destruct (_ <? _)%Z; [|simpl; tauto].
    destruct (1 <? scale st)%float; simpl; repeat split; assumption || reflexivity.
  - destruct touches as [|t0 [|t1 [|t2 rest]]]; simpl; try tauto.
    + destruct (1 <? scale st)%float; simpl; tauto.
    + destruct Hg as [Hpos Hfin]. repeat split; try assumption.
      apply ltb_leb, Hpos.
  - destruct touches as [|t0 [|t1 [|t2 rest]]]; simpl; try tauto.
    + destruct (isPanningRef st && (1 <? scale st)%float); simpl; tauto.
    + destruct (Hmove t0 t1 Hg) as [Hlo' Hhi'].
      destruct (pinchScale st (touchDist t0 t1) <=? 1)%float; simpl; tauto.
  - unfold handleTouchEnd. destruct (scale st <=? 1)%float; simpl;
      repeat split; assumption || reflexivity.
Qed.

(** X2. From the initial state, or from any state whose scale and baseline
    scale are in [1, 5] and whose baseline distance is zero or positive and
    finite, every sequence of taps, starts, moves and ends whose two-point
    touches are on different points leaves the scale in [1, 5]: also when a
    move comes before any baseline was taken. *)
Theorem gestures_keep_scale_in_range (gs : list gesture) (st : ZoomState) :
  pinchReady st -> Forall properGesture gs ->
  pinchReady (gestureRun gs st) /\ inRange (scale (gestureRun gs st)).
Proof.
  intros Hst Hgs.
  assert (H : pinchReady (gestureRun gs st))
    by (apply (gestureRun_invariant pinchReady properGesture);
        auto using gestureStep_pinchReady).
  split; [exact H|apply H].
Qed.

Lemma gestures_keep_scale_in_range_witness :
  let gs := [TouchMove [touch 0 0; touch 30 40]; TouchEnd; Tap 1700000000000;
             Tap 1700000000100; TouchStart [touch 0 0; touch 100 0];
             TouchMove [touch 0 0; touch 900 0]] in
  (pinchReady zoomInit /\ Forall properGesture gs) /\
  map (fun n => scale (gestureRun (firstn n gs) zoomInit)) [1; 4; 6]%nat
    = [5%float; 1%float; 5%float] /\
  inRange (scale (gestureRun gs zoomInit)).
Proof.
  assert (Hinit : pinchReady zoomInit) by (repeat split; reflexivity).
  assert (Hgs : Forall properGesture
    [TouchMove [touch 0 0; touch 30 40]; TouchEnd; Tap 1700000000000;
     Tap 1700000000100; TouchStart [touch 0 0; touch 100 0];
     TouchMove [touch 0 0; touch 900 0]])
    by (repeat constructor).
  split; [split; assumption|]. split; [reflexivity|].
  exact (proj2 (gestures_keep_scale_in_range _ _ Hinit Hgs)).
Defined.

(** X3. While the scale is not above 1, one finger does nothing: any
    sequence of one-touch starts and moves leaves the whole state, refs
    included, as it was. *)
Theorem one_finger_idle_at_unit_scale (gs : list gesture) (st : ZoomState) :
  (1 <? scale st)%float = false -> Forall oneFinger gs -> gestureRun gs st = st.
Proof.
  intros Hscale Hgs. induction Hgs as [|g gs Hg _ IH]; simpl; [reflexivity|].
  replace (gestureStep g st) with st; [exact IH|].
  destruct g as [now|[|t0 [|t1 rest]]|[|t0 [|t1 rest]]|]; simpl in *; try tauto.
  - rewrite Hscale. reflexivity.
  - rewrite Hscale, andb_false_r. reflexivity.
Qed.

Lemma one_finger_idle_at_unit_scale_witness :
  let gs := [TouchStart [touch 10 10]; TouchMove [touch 200 90]; TouchMove [touch 5 7]] in
  ((1 <? scale zoomInit)%float = false /\ Forall oneFinger gs) /\
  gestureRun gs zoomInit = zoomInit.
Proof.
  assert (Hgs : Forall oneFinger
    [TouchStart [touch 10 10]; TouchMove [touch 200 90]; TouchMove [touch 5 7]])
    by (repeat constructor).
  split; [split; [reflexivity|exact Hgs]|].
  exact (one_finger_idle_at_unit_scale _ zoomInit eq_refl Hgs).
Defined.

(** X4. Within a gesture only the last sample counts.  Two one-touch moves
    in a row leave the state that the second alone leaves, and after two
    two-point moves the scale is the one of the second alone; no move writes
    a ref. *)
Theorem moves_depend_on_last_sample (st : ZoomState) (q r a b c d : Touch)
    (touches : list Touch) :
  handleTouchMove [r] (handleTouchMove [q] st) = handleTouchMove [r] st /\
  scale (handleTouchMove [a; b] (handleTouchMove [c; d] st))
    = scale (handleTouchMove [a; b] st) /\
  setPosition origin (setScale 1 (handleTouchMove touches st))
    = setPosition origin (setScale 1 st).
Proof.
  split; [|split].
  - simpl. destruct (isPanningRef st) eqn:Hpan; simpl; [|rewrite Hpan; reflexivity].
    destruct (1 <? scale st)%float eqn:Hs; simpl; rewrite Hpan, Hs; reflexivity.
  - rewrite !handleTouchMove_scale. unfold pinchScale.
    destruct (handleTouchMove_refs c d st) as [-> ->]. reflexivity.
  - destruct touches as [|t0 [|t1 [|t2 rest]]]; simpl; try reflexivity.
    + destruct (isPanningRef st && (1 <? scale st)%float); reflexivity.
    + destruct (_ <=? _)%float; reflexivity.
Qed.

Lemma sub_self a : is_finite a = true -> (a - a)%float = 0%float.
Proof.
  rewrite is_finite_spec. intros Ha. apply Prim2SF_inj.
  rewrite sub_spec. unfold SF64sub.
  change (Prim2SF 0) with (S754_zero false).
  destruct (Prim2SF a) as [s|s| |s m e]; try tauto.
  - destruct s; reflexivity.
  - cbv [SFsub]. rewrite Z.sub_diag. reflexivity.
Qed.

Lemma add_zero_eqb a : is_nan a = false -> (a + 0 =? a)%float = true.
Proof.
  rewrite is_nan_spec, eqb_spec, add_spec. unfold SF64add.
  change (Prim2SF 0) with (S754_zero false).
  destruct (Prim2SF a) as [s|s| |s m e]; simpl; try tauto; intros _.
  - destruct s; reflexivity.
  - destruct s; reflexivity.
  - unfold SFeqb. rewrite SFcompare_refl; [reflexivity|exact I].
Qed.

(** X5. A pan follows the finger: after a one-touch start at [p] on a scale
    above 1, a move to [q] leaves the scale and sets the pan offset to the
    offset at the start plus [q - p], on each axis; moved to where it
    started, the finger leaves an offset equal to the one at the start. *)
Theorem pan_follows_touch (st : ZoomState) (p q : Touch) :
  (1 <? scale st)%float = true ->
  let st' := handleTouchMove [q] (handleTouchStart [p] st) in
  scale st' = scale st /\
  position st' =
    {| Point.x := (Point.x (position st) + (clientX q - clientX p))%float;
       Point.y := (Point.y (position st) + (clientY q - clientY p))%float |} /\
  (q = p -> finiteTouch p ->
   is_nan (Point.x (position st)) = false -> is_nan (Point.y (position st)) = false ->
   (Point.x (position st') =? Point.x (position st))%float = true /\
   (Point.y (position st') =? Point.y (position st))%float = true).
Proof.
  intros Hs. simpl. rewrite Hs. simpl. rewrite Hs. simpl.
  split; [reflexivity|]. split; [reflexivity|].
  intros -> [Hx Hy] Hnx Hny.
  rewrite !sub_self by assumption. split; apply add_zero_eqb; assumption.
Qed.

Lemma pan_follows_touch_witness :
  let st := setPosition {| Point.x := 12; Point.y := -7 |} (setScale 2.5 zoomInit) in
  let st' := handleTouchMove [touch 140 95] (handleTouchStart [touch 100 100] st) in
  (1 <? scale st)%float = true /\
  scale st' = 2.5%float /\
  position st' = {| Point.x := 52; Point.y := -12 |}.
Proof.
  split; [reflexivity|].
  destruct (pan_follows_touch
              (setPosition {| Point.x := 12; Point.y := -7 |} (setScale 2.5 zoomInit))
              (touch 100 100) (touch 140 95) eq_refl) as (Hscale & Hpos & _).
  split; [exact Hscale|exact Hpos].
Defined.

(** X6. Rapid taps alternate.  After a tap that follows a pause, a second
    tap within 300 ms takes a scale above 1 to 1 and any other to 2.5, and a
    third within 300 ms of the second takes it the other way; the pan offset
    is (0,0) after each. *)
Theorem rapid_taps_alternate (t1 t2 t3 : Z) (st : ZoomState) :
  (300 <= t1 - lastTapRef st)%Z -> (t2 - t1 < 300)%Z -> (t3 - t2 < 300)%Z ->
  let st2 := handleDoubleTap t2 (handleDoubleTap t1 st) in
  let st3 := handleDoubleTap t3 st2 in
  (scale st2 = if (1 <? scale st)%float then 1%float else 2.5%float) /\
  (scale st3 = if (1 <? scale st)%float then 2.5%float else 1%float) /\
  position st2 = origin /\ position st3 = origin /\ lastTapRef st3 = t3.
Proof.
  intros H1 H2 H3. unfold handleDoubleTap, DOUBLE_TAP_DELAY.
  apply Z.ltb_ge in H1. apply Z.ltb_lt in H2. apply Z.ltb_lt in H3.
  rewrite H1. cbn [lastTapRef setLastTap scale]. rewrite H2.
  destruct (1 <? scale st)%float; cbn; rewrite H3; cbn; repeat split; reflexivity.
Qed.

Lemma rapid_taps_alternate_witness :
  let t := 1700000000000%Z in
  let st2 := handleDoubleTap (t + 120) (handleDoubleTap t zoomInit) in
  let st3 := handleDoubleTap (t + 260) st2 in
  ((300 <= t - lastTapRef zoomInit)%Z /\ (t + 120 - t < 300)%Z /\
   (t + 260 - (t + 120) < 300)%Z) /\
  scale st2 = 2.5%float /\ scale st3 = 1%float /\ position st3 = origin.
Proof.
  assert (H1 : (300 <= 1700000000000 - lastTapRef zoomInit)%Z)
    by (apply Z.leb_le; reflexivity).
  assert (H2 : (1700000000000 + 120 - 1700000000000 < 300)%Z)
    by (apply Z.ltb_lt; reflexivity).
  assert (H3 : (1700000000000 + 260 - (1700000000000 + 120) < 300)%Z)
    by (apply Z.ltb_lt; reflexivity).
  split; [repeat split; assumption|].
  destruct (rapid_taps_alternate 1700000000000 (1700000000000 + 120)
              (1700000000000 + 260) zoomInit H1 H2 H3) as (Hs2 & Hs3 & _ & Hp3 & _).
  split; [exact Hs2|]. split; [exact Hs3|exact Hp3].
Defined.

(** X7. Whatever is opened, closed and done with the fingers, a closed modal
    holds the zoom (1, (0,0)): every image is opened at its own size and
    place, however the one before it was left. *)
Theorem closed_modal_is_unzoomed (evs : list modalEvent) (m : Modal) :
  closedUnzoomed m -> closedUnzoomed (modalRun evs m).
Proof.
  revert m. induction evs as [|ev evs IH]; intros m Hm; simpl; [exact Hm|].
  apply IH. unfold closedUnzoomed in *. destruct ev as [url| |g]; simpl.
  - discriminate.
  - intros _. split; reflexivity.
  - destruct (modalImage m) as [u|] eqn:Hu; simpl.
    + destruct u; simpl; intros Hc; [congruence|discriminate].
    + rewrite Hu. exact Hm.
Qed.

Lemma closed_modal_is_unzoomed_witness :
  let evs := [Open "a.webp"; Gesture (TouchStart [touch 0 0; touch 100 0]);
              Gesture (TouchMove [touch 0 0; touch 400 0]); Close;
              Gesture (TouchMove [touch 0 0; touch 400 0]); Open "b.webp"] in
  closedUnzoomed modalInit /\
  scale (zoom (modalRun (firstn 3 evs) modalInit)) = 4%float /\
  modalRun evs modalInit
    = openModal "b.webp"
        {| modalImage := None;
           zoom := resetZoom (handleTouchStart [touch 0 0; touch 100 0] zoomInit) |} /\
  closedUnzoomed (modalRun (firstn 5 evs) modalInit).
Proof.
  assert (Hinit : closedUnzoomed modalInit) by (intros _; split; reflexivity).
  split; [exact Hinit|]. split; [reflexivity|]. split; [reflexivity|].
  exact (closed_modal_is_unzoomed _ modalInit Hinit).
Defined.

(** * More of the image pipeline

    ** The size of the canvas *)

(** X8. [compressImage] never enlarges: for an image of positive size no
    side of the canvas is longer than the side of the image or than 1200,
    none is negative, and the longer side stays the longer one. *)
Theorem canvasSize_never_enlarges (W H : Z) :
  (0 < W < 2 ^ 32)%Z -> (0 < H < 2 ^ 32)%Z ->
  let (w', h') := canvasSize W H in
  (0 <= w' <= W /\ 0 <= h' <= H /\ w' <= 1200 /\ h' <= 1200 /\
   (H <= W -> h' <= w') /\ (W <= H -> w' <= h'))%Z.
Proof.
  intros HW HH. pose proof (canvasSize_bounds W H HW HH) as Hb.
  destruct (canvasSize W H) as [w' h']. exact Hb.
Qed.

Lemma canvasSize_never_enlarges_witness :
  ((0 < 1300 < 2 ^ 32)%Z /\ (0 < 1201 < 2 ^ 32)%Z) /\
  canvasSize 1300 1201 = (1200, 1109)%Z /\
  (0 <= 1200 <= 1300 /\ 0 <= 1109 <= 1201 /\ 1200 <= 1200 /\ 1109 <= 1200 /\
   (1201 <= 1300 -> 1109 <= 1200) /\ (1300 <= 1201 -> 1200 <= 1109))%Z.
Proof.
  split; [repeat split; reflexivity|]. split; [reflexivity|].
  exact (canvasSize_never_enlarges 1300 1201 (conj eq_refl eq_refl) (conj eq_refl eq_refl)).
Defined.

(** X9. Compressing twice changes nothing more: the canvas of an image that
    has the size of a canvas has that same size, also when a side of it
    is 0. *)
Theorem canvasSize_idempotent (W H : Z) :
  (0 < W < 2 ^ 32)%Z -> (0 < H < 2 ^ 32)%Z ->
  canvasSize (fst (canvasSize W H)) (snd (canvasSize W H)) = canvasSize W H.
Proof.
  intros HW HH. pose proof (canvasSize_bounds W H HW HH) as Hb.
  destruct (canvasSize W H) as [w' h']. cbn [fst snd] in *.
  apply canvasSize_small; lia.
Qed.

Lemma canvasSize_idempotent_witness :
  ((0 < 4801 < 2 ^ 32)%Z /\ (0 < 2 < 2 ^ 32)%Z) /\
  canvasSize 4801 2 = (1200, 0)%Z /\
  canvasSize (fst (canvasSize 4801 2)) (snd (canvasSize 4801 2)) = (1200, 0)%Z.
Proof.
  split; [repeat split; reflexivity|]. split; [reflexivity|].
  exact (canvasSize_idempotent 4801 2 (conj eq_refl eq_refl) (conj eq_refl eq_refl)).
Defined.

(** X10. A side of the canvas can round to nothing.  For an image with a
    side longer than 1200, the shorter side of the canvas is 0 when the
    longer side of the image is more than 2400 times the shorter one, and
    both sides of the canvas are positive when it is less than 2400 times.
    At 2400 times exactly the scaled length is one half, and the rounding of
    the quotient decides: 2400 by 1 keeps a pixel, 117600 by 49 does not. *)
Theorem canvasSize_positive (W H : Z) :
  (0 < W < 2 ^ 32)%Z -> (0 < H < 2 ^ 32)%Z -> (1200 < Z.max W H)%Z ->
  let (w', h') := canvasSize W H in
  (2400 * Z.min W H < Z.max W H -> Z.min w' h' = 0)%Z /\
  (Z.max W H < 2400 * Z.min W H -> 0 < w' /\ 0 < h')%Z.
Proof.
  intros HW HH Hmax.
  destruct (canvasSize_spec W H HW HH) as (_ & Hwide & Htall).
  destruct (Z.lt_ge_cases H W) as [Hlt|Hge].
  - destruct (Hwide ltac:(lia) Hlt) as (h' & -> & Hr). repeat split; nia.
  - destruct (Htall ltac:(lia) Hge) as (w' & -> & Hr). repeat split; nia.
Qed.

Lemma canvasSize_positive_witness :
  ((0 < 4801 < 2 ^ 32)%Z /\ (0 < 2 < 2 ^ 32)%Z /\ (1200 < Z.max 4801 2)%Z) /\
  canvasSize 4801 2 = (1200, 0)%Z /\ canvasSize 4799 2 = (1200, 1)%Z /\
  canvasSize 2400 1 = (1200, 1)%Z /\ canvasSize 117600 49 = (1200, 0)%Z /\
  (2400 * Z.min 4801 2 < Z.max 4801 2)%Z /\ Z.min 1200 0 = 0%Z.
Proof.
  split; [repeat split; reflexivity|].
  split; [reflexivity|]. split; [reflexivity|]. split; [reflexivity|].
  split; [reflexivity|]. split; [reflexivity|].
  exact (proj1 (canvasSize_positive 4801 2 (conj eq_refl eq_refl) (conj eq_refl eq_refl)
                  eq_refl) eq_refl).
Defined.

(** ** The calls of an upload *)

Section PipelineExtras.
Context {Env Blob : Type} `{Collaborators Env Blob}.

(** The stages of [uploadImage], one after the other. *)
Lemma uploadImage_outcome (category : string) (file : File.t) (w : World Env) :
  uploadImage category file w =
  match Image_load file with
  | None => (Throw (JsError "Failed to load image"), w)
  | Some (width, height) =>
      match canvas_toBlob file (fst (canvasSize width height))
              (snd (canvasSize width height)) "image/webp" QUALITY with
      | None => (Throw (JsError "Compression failed"), w)
      | Some blob =>
          let (uuid, e1) := crypto_randomUUID (env w) in
          let path := category ++ "/" ++ uuid ++ ".webp" in
          let (storageError, e2) := storage_upload path blob "image/webp" e1 in
          match storageError with
          | Some err =>
              (Throw err,
               {| env := e2;
                  log := (log w ++ [EvStorageUpload path "image/webp"])%list |})
          | None =>
              let url := storage_getPublicUrl path in
              let (answer, e3) := images_insert category path url e2 in
              (match answer with inl err => Throw err | inr data => Ok data end,
               {| env := e3; log := (log w ++ uploadCalls category path url)%list |})
          end
      end
  end.
Proof.
  unfold uploadImage, bind, compressImage, randomUUID, call, throwIf, throw, ret.
  destruct (Image_load file) as [[width height]|]; [|reflexivity].
  destruct (canvasSize width height) as [width' height']. cbn [fst snd].
  destruct (canvas_toBlob _ _ _ _ _) as [blob|]; [|reflexivity].
  destruct (crypto_randomUUID (env w)) as [uuid e1]. cbn [env log].
  destruct (storage_upload _ _ _ e1) as [[err|] e2]; cbn [env log]; [reflexivity|].
  destruct (images_insert _ _ _ e2) as [[err|data] e3]; cbn [env log];
    unfold uploadCalls; rewrite <- !app_assoc; reflexivity.
Qed.

(** X11. [uploadImage] asks in one order only, and how far it goes is
    decided by the answers.  When the file does not compress, nothing is
    asked and the error of the compression is thrown.  When it does, the
    blob is uploaded to [category/uuid.webp] as image/webp; if the storage
    answers with an error, that is the only call and the error is thrown: no
    row is inserted for a blob that was not stored.  If it answers without,
    the public URL and the insert of the row follow, for the same path.  A
    record is returned only after all three, and nothing is ever removed. *)
Theorem upload_calls_in_order (category : string) (file : File.t) (w : World Env) :
  let (r, w') := uploadImage category file w in
  let path := category ++ "/" ++ fst (crypto_randomUUID (env w)) ++ ".webp" in
  exists new,
    log w' = (log w ++ new)%list /\
    (new = [] \/ new = [EvStorageUpload path "image/webp"] \/
     new = uploadCalls category path (storage_getPublicUrl path)) /\
    (new = [] -> env w' = env w /\ exists message, r = Throw (JsError message)) /\
    (forall data, r = Ok data ->
       new = uploadCalls category path (storage_getPublicUrl path)) /\
    (forall err, fst (compressImage file w) = Throw err -> new = [] /\ r = Throw err) /\
    (forall blob, fst (compressImage file w) = Ok blob ->
       match fst (storage_upload path blob "image/webp"
                    (snd (crypto_randomUUID (env w)))) with
       | Some err => new = [EvStorageUpload path "image/webp"] /\ r = Throw err
       | None => new = uploadCalls category path (storage_getPublicUrl path)
       end).
Proof.
  rewrite uploadImage_outcome. unfold compressImage.
  destruct (Image_load file) as [[width height]|].
  2:{ exists []. rewrite app_nil_r. cbn [fst throw].
      split; [reflexivity|]. split; [auto|]. split; [eauto|].
      split; [discriminate|]. split; [|discriminate].
      intros err [= <-]. split; reflexivity. }
  destruct (canvasSize width height) as [width' height']. cbn [fst snd].
  destruct (canvas_toBlob _ _ _ _ _) as [blob|].
  2:{ exists []. rewrite app_nil_r. cbn [fst throw].
      split; [reflexivity|]. split; [auto|]. split; [eauto|].
      split; [discriminate|]. split; [|discriminate].
      intros err [= <-]. split; reflexivity. }
  destruct (crypto_randomUUID (env w)) as [uuid e1]. cbn [fst snd ret]. cbv zeta.
  destruct (storage_upload _ _ _ e1) as [[err|] e2] eqn:Hup.
  - eexists. split; [reflexivity|]. split; [auto|]. split; [discriminate|].
    split; [discriminate|]. split; [discriminate|].
    intros blob' [= <-]. rewrite Hup. split; reflexivity.
  - destruct (images_insert _ _ _ e2) as [answer e3].
    eexists. split; [reflexivity|]. split; [auto|]. split; [discriminate|].
    split; [reflexivity|]. split; [discriminate|].
    intros blob' [= <-]. rewrite Hup. reflexivity.
Qed.

Lemma uploadImage_log (category : string) (file : File.t) (w : World Env) :
  exists new,
    log (snd (uploadImage category file w)) = (log w ++ new)%list /\
    Forall (fun ev => uploadCall ev = true) new.
Proof.
  rewrite uploadImage_outcome.
  destruct (Image_load file) as [[width height]|].
  2:{ exists []. rewrite app_nil_r. auto. }
  destruct (canvas_toBlob _ _ _ _ _) as [blob|].
  2:{ exists []. rewrite app_nil_r. auto. }
  destruct (crypto_randomUUID (env w)) as [uuid e1]. cbv zeta.
  destruct (storage_upload _ _ _ e1) as [[err|] e2].
  - eexists. split; [reflexivity|]. repeat constructor.
  - destruct (images_insert _ _ _ e2) as [answer e3].
    eexists. split; [reflexivity|]. repeat constructor.
Qed.

(** The loop of [handleFileChange]: the records it was given, the last
    first, go to the front of the active category; the rest of the state
    stays; every call it makes is one of an upload. *)
Lemma uploadFiles_spec (active : string) (files : list File.t) :
  forall (st : AppState) (w : World Env),
  exists records new,
    let '(r, st', w') := uploadFiles active files st w in
    st' = setCategories
            (map (fun cat => if CategoryData.id cat =? active
                             then CategoryData.with_images
                                    (rev records ++ CategoryData.images cat)%list cat
                             else cat)) st /\
    log w' = (log w ++ new)%list /\
    Forall (fun ev => uploadCall ev = true) new /\
    (List.length records <= List.length (filter isImage files))%nat /\
    (r = Ok tt -> List.length records = List.length (filter isImage files)) /\
    (forall err, r = Throw err ->
       (List.length records < List.length (filter isImage files))%nat).
Proof.
  induction files as [|file files IH]; intros st w.
  - exists [], []. simpl. rewrite app_nil_r. repeat split; auto; try discriminate.
    destruct st as [cats a l u e]. unfold setCategories. simpl. f_equal.
    induction cats as [|cat cats IHc]; simpl; [reflexivity|].
    rewrite <- IHc. f_equal. destruct (_ =? _); [destruct cat|]; reflexivity.
  - cbn [uploadFiles filter].
    change (String.prefix "image/" (File.type file)) with (isImage file).
    destruct (isImage file) eqn:Hty; cbn [negb].
    + destruct (uploadImage_log active file w) as (new1 & Hlog1 & Hnew1).
      destruct (uploadImage active file w) as [[record|err] w1]; simpl in Hlog1.
      * destruct (IH (setCategories (prependImage active record) st) w1)
          as (records & new & Hrec).
        exists (record :: records), (new1 ++ new)%list.
        destruct (uploadFiles active files _ w1) as [[r st'] w'].
        destruct Hrec as (-> & Hlog & Hnew & Hle & Heq & Hlt).
        repeat split.
        -- destruct st as [cats a l u e]. unfold setCategories, prependImage. simpl.
           f_equal. rewrite map_map. apply map_ext. intros cat.
           destruct (CategoryData.id cat =? active) eqn:Hid; [|rewrite Hid; reflexivity].
           simpl. rewrite Hid. unfold CategoryData.with_images. simpl.
           rewrite <- app_assoc. reflexivity.
        -- rewrite Hlog, Hlog1, app_assoc. reflexivity.
        -- apply Forall_app. auto.
        -- simpl. lia.
        -- intros Hr. simpl. rewrite Heq by exact Hr. reflexivity.
        -- intros err Hr. simpl. specialize (Hlt err Hr). lia.
      * exists [], new1. repeat split; auto.
        -- destruct st as [cats a l u e]. unfold setCategories. simpl. f_equal.
           clear. induction cats as [|cat cats IHc]; simpl; [reflexivity|].
           rewrite <- IHc. f_equal. destruct (_ =? _); [destruct cat|]; reflexivity.
        -- simpl. lia.
        -- discriminate.
        -- intros _ _. simpl. lia.
    + exact (IH st w).
Qed.

(** The loop of [handleFileChange] and the records of its uploads: the
    state it leaves has them in front of the images of the active category,
    the last first, and it returns exactly when every image file of the
    selection has its record. *)
Lemma uploadFiles_records (active : string) (files : list File.t) :
  forall (st : AppState) (w : World Env),
  let records := uploadedRecords active (filter isImage files) w in
  let '(r, st', _) := uploadFiles active files st w in
  st' = setCategories
          (map (fun cat => if CategoryData.id cat =? active
                           then CategoryData.with_images
                                  (rev records ++ CategoryData.images cat)%list cat
                           else cat)) st /\
  (r = Ok tt -> List.length records = List.length (filter isImage files)) /\
  (forall err, r = Throw err ->
     (List.length records < List.length (filter isImage files))%nat).
Proof.
  induction files as [|file files IH]; intros st w.
  - cbn. repeat split; auto; try discriminate.
    destruct st as [cats a l u e]. unfold setCategories. cbn. f_equal.
    induction cats as [|cat cats IHc]; cbn; [reflexivity|].
    rewrite <- IHc. f_equal. destruct (_ =? _); [destruct cat|]; reflexivity.
  - cbn [uploadFiles filter].
    change (String.prefix "image/" (File.type file)) with (isImage file).
    destruct (isImage file) eqn:Hty; cbn [negb]; [|exact (IH st w)].
    cbn [uploadedRecords].
    destruct (uploadImage active file w) as [[record|err] w1].
    + specialize (IH (setCategories (prependImage active record) st) w1).
      cbv zeta in IH |- *.
      destruct (uploadFiles active files _ w1) as [[r st'] w'].
      destruct IH as (-> & Heq & Hlt). repeat split.
      * destruct st as [cats a l u e]. unfold setCategories, prependImage. cbn.
        f_equal. rewrite map_map. apply map_ext. intros cat.
        destruct (CategoryData.id cat =? active) eqn:Hid; [|rewrite Hid; reflexivity].
        cbn. rewrite Hid. unfold CategoryData.with_images. cbn.
        rewrite <- app_assoc. reflexivity.
      * intros Hr. cbn. rewrite Heq by exact Hr. reflexivity.
      * intros err Hr. cbn. specialize (Hlt err Hr). lia.
    + cbv zeta. repeat split.
      * destruct st as [cats a l u e]. unfold setCategories. cbn. f_equal.
        clear. induction cats as [|cat cats IHc]; cbn; [reflexivity|].
        rewrite <- IHc. f_equal. destruct (_ =? _); [destruct cat|]; reflexivity.
      * discriminate.
      * intros _ _. cbn. lia.
Qed.

(** X12. A batch goes in newest first.  Take the records that [uploadImage]
    returns for the image files of the selection, called for one after the
    other up to the first call that throws.  After [handleFileChange] the
    images of the active category are these records, the last returned
    first, followed by the images it had; the other categories and the
    other fields of every category are as they were; [isUploading] is
    false.  Either every image file of the selection has its record and
    [error] is what it was, or fewer have and a message is set. *)
Theorem batch_prepends_newest_first (active : string) (files : list File.t)
    (st st' : AppState) (w w' : World Env) :
  truthy (activeCategory st) = Some active ->
  handleFileChange (Some files) st w = (st', w') ->
  let records := uploadedRecords active (filter isImage files) w in
  Forall2 (fun cat cat' =>
             if CategoryData.id cat =? active
             then cat' = CategoryData.with_images
                           (rev records ++ CategoryData.images cat)%list cat
             else cat' = cat)
          (categories st) (categories st') /\
  isUploading st' = false /\
  activeCategory st' = activeCategory st /\ isLoading st' = isLoading st /\
  ((List.length records = List.length (filter isImage files) /\ error st' = error st) \/
   ((List.length records < List.length (filter isImage files))%nat /\
    exists message, error st' = Some message)).
Proof.
  intros Hact Hrun. unfold handleFileChange in Hrun. rewrite Hact in Hrun.
  pose proof (uploadFiles_records active files (setIsUploading true st) w) as Hspec.
  cbv zeta in Hspec |- *.
  destruct (uploadFiles active files (setIsUploading true st) w) as [[r st2] w2].
  destruct Hspec as (-> & Heq & Hlt).
  destruct r as [[]|err].
  - injection Hrun as <- <-. cbn. repeat split.
    + apply (Forall2_map_if (fun cat => CategoryData.id cat =? active)).
    + left. split; [apply Heq|]; reflexivity.
  - unfold showError in Hrun. injection Hrun as <- <-. cbn. repeat split.
    + apply (Forall2_map_if (fun cat => CategoryData.id cat =? active)).
    + right. split; [apply (Hlt err); reflexivity|]. eexists. reflexivity.
Qed.

(** X13. An upload never removes and never reads.  Whatever is selected,
    [handleFileChange] adds to the log calls of uploads only (upload of a
    blob, public URL, insert of a row), followed by at most one message,
    which is then the value of [error]; without an active category it does
    nothing at all. *)
Theorem uploads_only_upload (files : option (list File.t)) (st : AppState)
    (w : World Env) :
  let (st', w') := handleFileChange files st w in
  (exists calls errors,
     log w' = (log w ++ calls ++ errors)%list /\
     Forall (fun ev => uploadCall ev = true) calls /\
     (errors = [] \/
      exists message, errors = [EvSetError message] /\ error st' = Some message)) /\
  (truthy (activeCategory st) = None -> st' = st /\ w' = w).
Proof.
  unfold handleFileChange.
  destruct files as [files|].
  2:{ cbn. split; [|auto]. exists [], []. rewrite app_nil_r. auto. }
  destruct (truthy (activeCategory st)) as [active|].
  2:{ cbn. split; [|auto]. exists [], []. rewrite app_nil_r. auto. }
  destruct (uploadFiles_spec active files (setIsUploading true st) w)
    as (records & new & Hspec).
  destruct (uploadFiles active files (setIsUploading true st) w) as [[r st2] w2].
  destruct Hspec as (_ & Hlog & Hnew & _).
  destruct r as [u|err]; cbn; (split; [|discriminate]).
  - exists new, []. rewrite app_nil_r. auto.
  - exists new, [EvSetError (errorMessage err "Error al subir imagen")].
    rewrite Hlog, app_assoc. repeat split; eauto.
Qed.

(** *** Deleting *)

Lemma filter_all {A : Type} (p : A -> bool) (l : list A) :
  forallb p l = true -> filter p l = l.
Proof.
  induction l as [|a l IH]; simpl; [reflexivity|].
  destruct (p a); simpl; [|discriminate]. intros Hl. now rewrite IH.
Qed.

Lemma removeImage_prependImage categoryId record cats :
  freshIn categoryId (ImageRecord.id record) cats = true ->
  removeImage categoryId record (prependImage categoryId record cats) = cats.
Proof.
  unfold removeImage, prependImage, freshIn. rewrite map_map.
  induction cats as [|cat cats IH]; simpl; [reflexivity|].
  intros Hfresh. apply andb_prop in Hfresh. destruct Hfresh as [Hcat Hcats].
  rewrite IH by exact Hcats. f_equal.
  destruct (CategoryData.id cat =? categoryId) eqn:Hid; simpl; [|rewrite Hid; reflexivity].
  rewrite Hid, String.eqb_refl. simpl in *.
  rewrite filter_all by exact Hcat. destruct cat; reflexivity.
Qed.

(** X14. Upload, then delete: when the image that was just uploaded is
    deleted and both remote deletes succeed, the categories are again what
    they were before the upload, provided the store gave the record an
    identifier that no image of the category had. *)
Theorem upload_then_delete (active : string) (file : File.t) (record : ImageRecord.t)
    (st : AppState) (w w1 : World Env) :
  truthy (activeCategory st) = Some active ->
  isImage file = true ->
  uploadImage active file w = (Ok record, w1) ->
  fst (deleteImage record w1) = Ok tt ->
  freshIn active (ImageRecord.id record) (categories st) = true ->
  let uploaded := handleFileChange (Some [file]) st w in
  let deleted := handleDeleteImage active record (fst uploaded) (snd uploaded) in
  categories (fst deleted) = categories st.
Proof.
  intros Hact Hty Hup Hdel Hfresh uploaded deleted.
  subst deleted uploaded. unfold handleFileChange. rewrite Hact.
  rewrite uploadFiles_ok with (record := record) (w1 := w1) by assumption.
  cbn [uploadFiles fst snd]. unfold handleDeleteImage.
  destruct (deleteImage record w1) as [[u|err] w2]; simpl in Hdel; [|discriminate].
  cbn. apply removeImage_prependImage, Hfresh.
Qed.

Lemma imagesOf_removeImage (c categoryId : string) (record : ImageRecord.t)
    (st : AppState) :
  imagesOf c (setCategories (removeImage categoryId record) st) =
  if c =? categoryId
  then filter (fun img => negb (ImageRecord.id img =? ImageRecord.id record))
              (imagesOf c st)
  else imagesOf c st.
Proof.
  unfold imagesOf, setCategories, removeImage. cbn [categories].
  induction (categories st) as [|cat cats IH]; simpl.
  - destruct (c =? categoryId); reflexivity.
  - rewrite IH. clear IH.
    destruct (CategoryData.id cat =? categoryId) eqn:Hid; simpl.
    + apply String.eqb_eq in Hid. subst categoryId.
      destruct (CategoryData.id cat =? c) eqn:Hc.
      * apply String.eqb_eq in Hc. subst c. rewrite String.eqb_refl.
        now rewrite filter_app.
      * rewrite String.eqb_sym, Hc. reflexivity.
    + destruct (CategoryData.id cat =? c) eqn:Hc; [|reflexivity].
      apply String.eqb_eq in Hc. subst c. rewrite Hid. reflexivity.
Qed.

(** X15. A delete is complete and can be repeated.  When both remote
    deletes succeed, the images of the category are the ones it had whose
    identifier is not that of the record, in the order they had: none with
    that identifier is left; the images of every other category are as they
    were; and deleting the same record once more leaves the categories as
    they are. *)
Theorem delete_is_complete (categoryId : string) (record : ImageRecord.t)
    (st : AppState) (w : World Env) :
  fst (deleteImage record w) = Ok tt ->
  let st' := fst (handleDeleteImage categoryId record st w) in
  imagesOf categoryId st'
    = filter (fun img => negb (ImageRecord.id img =? ImageRecord.id record))
             (imagesOf categoryId st) /\
  Forall (fun img => ImageRecord.id img <> ImageRecord.id record)
         (imagesOf categoryId st') /\
  (forall c, c <> categoryId -> imagesOf c st' = imagesOf c st) /\
  (forall w2 : World Env, fst (deleteImage record w2) = Ok tt ->
     categories (fst (handleDeleteImage categoryId record st' w2)) = categories st').
Proof.
  intros Hdel.
  assert (Hst : fst (handleDeleteImage categoryId record st w)
                = setCategories (removeImage categoryId record) st).
  { unfold handleDeleteImage.
    destruct (deleteImage record w) as [[u|err] w1]; simpl in Hdel;
      [reflexivity|discriminate]. }
  cbv zeta. rewrite Hst. clear Hst.
  assert (Himgs : imagesOf categoryId (setCategories (removeImage categoryId record) st)
            = filter (fun img => negb (ImageRecord.id img =? ImageRecord.id record))
                     (imagesOf categoryId st))
    by (rewrite imagesOf_removeImage, String.eqb_refl; reflexivity).
  split; [exact Himgs|]. split; [|split].
  - rewrite Himgs. apply Forall_forall. intros img Hin.
    apply filter_In in Hin. destruct Hin as [_ Hp].
    apply negb_true_iff, String.eqb_neq in Hp. exact Hp.
  - intros c Hc. rewrite imagesOf_removeImage.
    apply String.eqb_neq in Hc. rewrite Hc. reflexivity.
  - intros w2 Hdel2. unfold handleDeleteImage.
    destruct (deleteImage record w2) as [[u2|err] w3]; simpl in Hdel2; [|discriminate].
    cbn. unfold removeImage. rewrite map_map. apply map_ext. intros cat.
    destruct (CategoryData.id cat =? categoryId) eqn:Hid; [|rewrite Hid; reflexivity].
    simpl. rewrite Hid. unfold CategoryData.with_images. simpl. f_equal.
    induction (CategoryData.images cat) as [|img imgs IH]; simpl; [reflexivity|].
    destruct (negb (ImageRecord.id img =? ImageRecord.id record)) eqn:Hp; simpl.
    + rewrite Hp, IH. reflexivity.
    + exact IH.
Qed.

(** *** The first load *)

Lemma fetchAll_length ids : forall w : World Env,
  List.length (fst (fetchAll ids w)) = List.length ids.
Proof.
  induction ids as [|c ids IH]; intros w; simpl; [reflexivity|].
  destruct (fetchImagesByCategory c w) as [p w1].
  specialize (IH w1). destruct (fetchAll ids w1) as [ps w2]. simpl in *.
  now rewrite IH.
Qed.

Lemma firstRejection_None {A : Type} (ps : list (nat * result A)) :
  firstRejection ps = None ->
  ps = map (fun a => (fst a, Ok (snd a))) (combine (map fst ps) (fulfilled ps)) /\
  List.length (fulfilled ps) = List.length ps.
Proof.
  induction ps as [|[t [a|err]] ps IH]; simpl; intros Hnone.
  - split; reflexivity.
  - destruct (IH Hnone) as [Hps Hlen]. split; [|now rewrite Hlen].
    simpl. now rewrite <- Hps.
  - destruct (firstRejection ps) as [[t' err']|]; [destruct (t' <? t)%nat|]; discriminate.
Qed.

Lemma skeleton_hydrate (results : list (list ImageRecord.t)) :
  List.length results = List.length CATEGORIES -> skeleton (hydrate results) = CATEGORIES.
Proof.
  destruct results as [|r1 [|r2 [|r3 [|r4 [|r5 rest]]]]]; simpl; try discriminate.
  reflexivity.
Qed.

(** X16. When every select is answered and the view is still there, the
    first load replaces the categories: they are the four of [CATEGORIES],
    in order and with their names and colours, each with exactly the images
    its own select returned, whatever images the state held before; the
    loading ends, [error] stays and nothing but the four selects is asked. *)
Theorem load_success_hydrates (st : AppState) (w : World Env) :
  let ids := map CategoryData.id CATEGORIES in
  let ps := fst (fetchAll ids w) in
  Forall (fun p => exists data, snd p = Ok data) ps ->
  let (st', w') := load false st w in
  skeleton (categories st') = CATEGORIES /\
  Forall2 (fun cat p => snd p = Ok (CategoryData.images cat)) (categories st') ps /\
  isLoading st' = false /\ error st' = error st /\
  activeCategory st' = activeCategory st /\
  log w' = (log w ++ map EvDbSelect ids)%list.
Proof.
  intros ids ps Hall. unfold load. fold ids.
  pose proof (fetchAll_log ids w) as Hlog.
  pose proof (fetchAll_length ids w) as Hlen.
  subst ps. destruct (fetchAll ids w) as [ps w1]. cbn [fst snd] in *.
  assert (Hnone : firstRejection ps = None).
  { clear - Hall. induction Hall as [|[t r] ps [data Hd] _ IH]; simpl; [reflexivity|].
    simpl in Hd. subst r. exact IH. }
  unfold Promise_all. rewrite Hnone.
  destruct (firstRejection_None ps Hnone) as [Hps Hful].
  cbn [categories isLoading error activeCategory setIsLoading setCategories].
  split; [apply skeleton_hydrate; rewrite Hful, Hlen; reflexivity|].
  split; [|auto].
  clear Hps Hnone Hlog Hful.
  destruct ps as [|[t1 r1] [|[t2 r2] [|[t3 r3] [|[t4 r4] [|p5 rest]]]]];
    try discriminate Hlen.
  inversion Hall as [|? ? [d1 H1] Hall1]; subst.
  inversion Hall1 as [|? ? [d2 H2] Hall2]; subst.
  inversion Hall2 as [|? ? [d3 H3] Hall3]; subst.
  inversion Hall3 as [|? ? [d4 H4] _]; subst.
  simpl in H1, H2, H3, H4. subst. repeat constructor.
Qed.

(** X17. The first load only reads, and a load that was cancelled leaves
    the state alone.  Whatever the answers, the log gains the four selects,
    in the order of [CATEGORIES], and after them at most one message; no
    other call is made; [activeCategory] and [isUploading] stay; and with
    [cancelled] set the whole state is what it was. *)
Theorem load_only_reads (cancelled : bool) (st : AppState) (w : World Env) :
  let (st', w') := load cancelled st w in
  (exists errors,
     log w' = (log w ++ map EvDbSelect (map CategoryData.id CATEGORIES) ++ errors)%list /\
     (errors = [] \/ exists message, errors = [EvSetError message])) /\
  activeCategory st' = activeCategory st /\ isUploading st' = isUploading st /\
  (cancelled = true -> st' = st).
Proof.
  unfold load.
  pose proof (fetchAll_log (map CategoryData.id CATEGORIES) w) as Hlog.
  destruct (fetchAll _ w) as [ps w1]. cbn [snd] in Hlog.
  destruct (Promise_all ps) as [results|err]; destruct cancelled;
    cbn [showError emit fst snd log env setIsLoading setCategories setError
         activeCategory isUploading];
    (split; [|repeat split; auto; discriminate]); rewrite Hlog.
  - exists []. rewrite app_nil_r. auto.
  - exists []. rewrite app_nil_r. auto.
  - exists []. rewrite app_nil_r. auto.
  - eexists. rewrite <- app_assoc. eauto.
Qed.

(** *** Every state the handlers reach *)

Lemma skeleton_map_images (f : CategoryData.t -> list ImageRecord.t)
    (c : CategoryData.t -> bool) (cats : list CategoryData.t) :
  skeleton (map (fun cat => if c cat then CategoryData.with_images (f cat) cat else cat)
                cats) = skeleton cats.
Proof.
  unfold skeleton. rewrite map_map. apply map_ext. intros cat.
  destruct (c cat); reflexivity.
Qed.

Lemma find_skeleton (active : string) (cats : list CategoryData.t) :
  option_map (CategoryData.with_images [])
             (find (fun c => CategoryData.id c =? active) cats)
  = find (fun c => CategoryData.id c =? active) (skeleton cats).
Proof.
  induction cats as [|cat cats IH]; simpl; [reflexivity|].
  destruct (CategoryData.id cat =? active); [reflexivity|exact IH].
Qed.

Lemma appStep_settled (ev : appEvent) (s : AppState * World Env) :
  settled (fst s) -> settled (fst (appStep ev s)).
Proof.
  destruct s as [st w]. unfold settled. cbn [fst snd]. intros [Hcats Hup].
  destruct ev as [cancelled|files|categoryId record|category]; cbn [appStep fst snd].
  - unfold load. pose proof (fetchAll_length (map CategoryData.id CATEGORIES) w) as Hlen.
    destruct (fetchAll _ w) as [ps w1]. cbn [fst] in Hlen.
    unfold Promise_all. destruct (firstRejection ps) as [[t err]|] eqn:Hrej.
    + destruct cancelled; cbn; auto.
    + destruct cancelled; cbn; auto. split; [|exact Hup].
      apply skeleton_hydrate. destruct (firstRejection_None ps Hrej) as [_ ->].
      exact Hlen.
  - unfold handleFileChange. destruct files as [files|]; [|auto].
    destruct (truthy (activeCategory st)) as [active|]; [|auto].
    destruct (uploadFiles_spec active files (setIsUploading true st) w)
      as (records & new & Hspec).
    destruct (uploadFiles active files (setIsUploading true st) w) as [[r st2] w2].
    destruct Hspec as (-> & _).
    destruct r as [u|err]; cbn; (split; [|reflexivity]);
      rewrite (skeleton_map_images
                 (fun cat => (rev records ++ CategoryData.images cat)%list)
                 (fun cat => CategoryData.id cat =? active)); exact Hcats.
  - unfold handleDeleteImage. destruct (deleteImage record w) as [[u|err] w1]; cbn; auto.
    split; [|exact Hup]. unfold removeImage.
    rewrite (skeleton_map_images
               (fun cat => filter (fun img => negb (ImageRecord.id img =? ImageRecord.id record))
                                  (CategoryData.images cat))
               (fun cat => CategoryData.id cat =? categoryId)). exact Hcats.
  - auto.
Qed.

(** X18. Only the images change.  From the initial state, whatever loads,
    selections of files, deletes and pages follow and whatever the backend
    answers, the state holds the four categories of [CATEGORIES], in their
    order and with their name, icon, colour and gradient; between two events
    no upload is in flight; and the page of each of the four identifiers
    finds its category. *)
Theorem handlers_keep_categories (evs : list appEvent) (s : AppState * World Env) :
  settled (fst s) ->
  let st' := fst (appRun evs s) in
  settled st' /\
  (forall cat, In cat CATEGORIES -> activeCategory st' = Some (CategoryData.id cat) ->
     exists c, currentCategory st' = Some c /\ CategoryData.with_images [] c = cat).
Proof.
  intros Hs. cbv zeta.
  assert (Hset : settled (fst (appRun evs s))).
  { revert s Hs. induction evs as [|ev evs IH]; intros s Hs; simpl; [exact Hs|].
    apply IH, appStep_settled, Hs. }
  split; [exact Hset|].
  intros cat Hin Hact. unfold currentCategory. rewrite Hact.
  pose proof (find_skeleton (CategoryData.id cat) (categories (fst (appRun evs s)))) as Hf.
  destruct Hset as [Hcats _]. rewrite Hcats in Hf.
  assert (Hfound : find (fun c => CategoryData.id c =? CategoryData.id cat) CATEGORIES
                   = Some cat).
  { simpl in Hin. destruct Hin as [<-|[<-|[<-|[<-|[]]]]]; reflexivity. }
  rewrite Hfound in Hf.
  destruct (find _ (categories _)) as [c|]; simpl in Hf; [|discriminate].
  exists c. split; [reflexivity|]. congruence.
Qed.
End PipelineExtras.

(** * The admin session and the theme *)

Lemma getItem_setItem (key value k : string) (s : Storage) :
  getItem k (setItem key value s) = if k =? key then Some value else getItem k s.
Proof. reflexivity. Qed.

Lemma adminRun_snoc (evs : list adminEvent) (ev : adminEvent) (s : AdminState * Storage) :
  adminRun (evs ++ [ev]) s = adminStep ev (adminRun evs s).
Proof. unfold adminRun. rewrite fold_left_app. reflexivity. Qed.

(** What stands in a field of the form was typed there: the fields start
    empty and a login empties them. *)
Lemma typed_fields (evs : list adminEvent) (session : Storage) (user pass : string) :
  let a := fst (adminRun evs (adminInit session, session)) in
  (user <> "" -> loginUser a = user -> In (TypeUser user) evs) /\
  (pass <> "" -> loginPass a = pass -> In (TypePass pass) evs).
Proof.
  induction evs as [|ev evs IH] using rev_ind; cbv zeta.
  - cbn. split; intros Hne Heq; congruence.
  - rewrite adminRun_snoc. cbv zeta in IH. destruct IH as [IHu IHp].
    destruct (adminRun evs (adminInit session, session)) as [a s0]. cbn [fst] in *.
    destruct ev as [v|v| |]; cbn [adminStep fst snd changeLoginUser changeLoginPass
                                  handleLogout loginUser loginPass].
    + split; intros Hne Heq; apply in_or_app.
      * right. left. congruence.
      * left. auto.
    + split; intros Hne Heq; apply in_or_app.
      * left. auto.
      * right. left. congruence.
    + unfold handleLogin.
      destruct ((loginUser a =? "admin") && (loginPass a =? "nemby2026"));
        cbn [fst loginUser loginPass]; split; intros Hne Heq;
        try congruence; apply in_or_app; left; auto.
    + split; intros Hne Heq; apply in_or_app; left; auto.
Qed.

(** X19. No one is admin who did not log in.  On a page that starts without
    a stored session, whatever is typed, submitted and logged out, the admin
    flag is set at the end only if the form was submitted at some point with
    "admin" typed as the user and "nemby2026" as the password before it,
    and there was no logout after that submit. *)
Theorem admin_needs_typed_credentials (evs : list adminEvent) (session : Storage) :
  isAdmin (adminInit session) = false ->
  isAdmin (fst (adminRun evs (adminInit session, session))) = true ->
  exists before after,
    evs = (before ++ Submit :: after)%list /\
    In (TypeUser "admin") before /\ In (TypePass "nemby2026") before /\
    ~ In Logout after.
Proof.
  intros Hinit. induction evs as [|ev evs IH] using rev_ind.
  - cbn [adminRun fold_left fst]. congruence.
  - rewrite adminRun_snoc.
    pose proof (typed_fields evs session "admin" "nemby2026") as Htyped.
    cbv zeta in Htyped. destruct Htyped as [Huser Hpass].
    destruct (adminRun evs (adminInit session, session)) as [a s0]. cbn [fst] in *.
    assert (Hkeep : isAdmin a = true ->
              exists before after,
                (evs ++ [ev] = before ++ Submit :: after)%list /\
                In (TypeUser "admin") before /\ In (TypePass "nemby2026") before /\
                (ev <> Logout -> ~ In Logout after)).
    { intros Ha. destruct (IH Ha) as (before & after & -> & Hu & Hp & Hout).
      exists before, (after ++ [ev])%list. rewrite <- app_assoc. cbn [app].
      split; [reflexivity|]. split; [exact Hu|]. split; [exact Hp|].
      intros Hev Hin. apply in_app_or in Hin. destruct Hin as [Hin|[Hin|[]]]; auto. }
    destruct ev as [v|v| |]; cbn [adminStep fst snd changeLoginUser changeLoginPass
                                  handleLogout isAdmin].
    + intros Ha. destruct (Hkeep Ha) as (before & after & E & Hu & Hp & Hout).
      exists before, after. repeat split; auto. apply Hout. discriminate.
    + intros Ha. destruct (Hkeep Ha) as (before & after & E & Hu & Hp & Hout).
      exists before, after. repeat split; auto. apply Hout. discriminate.
    + unfold handleLogin.
      destruct ((loginUser a =? "admin") && (loginPass a =? "nemby2026")) eqn:Hok;
        cbn [fst isAdmin].
      * intros _. apply andb_true_iff in Hok. destruct Hok as [Hu Hp].
        apply String.eqb_eq in Hu, Hp.
        exists evs, []. split; [reflexivity|].
        split; [apply Huser; [discriminate|exact Hu]|].
        split; [apply Hpass; [discriminate|exact Hp]|]. intros [].
      * intros Ha. destruct (Hkeep Ha) as (before & after & E & Hu & Hp & Hout).
        exists before, after. repeat split; auto. apply Hout. discriminate.
    + discriminate.
Qed.

(** X19, on a first attempt with a wrong password and a second with the
    right one. *)
Lemma admin_needs_typed_credentials_witness :
  let evs := [TypeUser "admin"; TypePass "nemby2025"; Submit;
              TypePass "nemby2026"; Submit; TypeUser "x"] in
  isAdmin (adminInit emptyStorage) = false /\
  isAdmin (fst (adminRun (firstn 3 evs) (adminInit emptyStorage, emptyStorage))) = false /\
  isAdmin (fst (adminRun evs (adminInit emptyStorage, emptyStorage))) = true /\
  exists before after,
    evs = (before ++ Submit :: after)%list /\
    In (TypeUser "admin") before /\ In (TypePass "nemby2026") before /\
    ~ In Logout after.
Proof.
  split; [reflexivity|]. split; [reflexivity|]. split; [reflexivity|].
  exact (admin_needs_typed_credentials
           [TypeUser "admin"; TypePass "nemby2025"; Submit;
            TypePass "nemby2026"; Submit; TypeUser "x"]
           emptyStorage eq_refl eq_refl).
Defined.

Lemma adminStep_in_sync (ev : adminEvent) (s : AdminState * Storage) :
  isAdmin (fst s) = isAdmin (adminInit (snd s)) ->
  isAdmin (fst (adminStep ev s)) = isAdmin (adminInit (snd (adminStep ev s))).
Proof.
  destruct s as [a session]. cbn [fst snd]. intros Hsync.
  destruct ev as [v|v| |]; cbn [adminStep fst snd]; try exact Hsync.
  - unfold handleLogin.
    destruct ((loginUser a =? "admin") && (loginPass a =? "nemby2026"));
      cbn; [reflexivity|exact Hsync].
  - reflexivity.
Qed.

(** X20. The admin flag and the stored session agree.  From the state a
    page starts in, whatever is typed, submitted and logged out, the admin
    flag is the one a reload would read back from the session storage; and
    no key but "tablero-admin" is written. *)
Theorem session_follows_admin (evs : list adminEvent) (session : Storage) :
  let (a', session') := adminRun evs (adminInit session, session) in
  isAdmin a' = isAdmin (adminInit session') /\
  (forall key, key <> "tablero-admin" -> getItem key session' = getItem key session).
Proof.
  assert (Hgen : forall s,
    isAdmin (fst s) = isAdmin (adminInit (snd s)) ->
    isAdmin (fst (adminRun evs s)) = isAdmin (adminInit (snd (adminRun evs s))) /\
    (forall key, key <> "tablero-admin" ->
       getItem key (snd (adminRun evs s)) = getItem key (snd s))).
  { induction evs as [|ev evs IH]; intros s Hs; simpl; [auto|].
    destruct (IH (adminStep ev s) (adminStep_in_sync ev s Hs)) as [Hsync Hkeys].
    split; [exact Hsync|]. intros key Hkey. rewrite Hkeys by exact Hkey.
    destruct s as [a session0]. apply String.eqb_neq in Hkey.
    destruct ev as [v|v| |]; cbn [adminStep fst snd]; try reflexivity.
    - unfold handleLogin.
      destruct ((loginUser a =? "admin") && (loginPass a =? "nemby2026")); cbn;
        [unfold getItem, setItem; rewrite Hkey|]; reflexivity.
    - unfold handleLogout, getItem, removeItem. cbn. rewrite Hkey. reflexivity. }
  specialize (Hgen (adminInit session, session) eq_refl).
  destruct (adminRun evs (adminInit session, session)) as [a' session']. exact Hgen.
Qed.

(** X21. The theme is one of two after the first toggle, and it comes back.
    [toggleTheme] gives "light" for "dark" and "dark" for anything else, so
    two toggles of a theme that is "dark" or "light" give it back; a theme
    that the effect has stored is the one the next start reads, unless it is
    empty, and the effect writes no other key. *)
Theorem theme_toggles_and_persists (theme : string) (localStorage : Storage)
    (prefersLight : bool) :
  let theme' := toggleTheme theme in
  (theme' = "dark" \/ theme' = "light") /\
  toggleTheme (toggleTheme theme') = theme' /\
  themeInit (snd (themeEffect theme' localStorage)) prefersLight = theme' /\
  (theme <> "" -> themeInit (snd (themeEffect theme localStorage)) prefersLight = theme) /\
  themeInit (snd (themeEffect "" localStorage)) prefersLight
    = (if prefersLight then "light" else "dark") /\
  (forall key, key <> "tablero-theme" ->
     getItem key (snd (themeEffect theme localStorage)) = getItem key localStorage).
Proof.
  cbv zeta. unfold toggleTheme, themeInit, themeEffect. cbn [snd].
  rewrite !getItem_setItem. cbn.
  repeat split.
  - destruct (theme =? "dark"); auto.
  - destruct (theme =? "dark"); reflexivity.
  - destruct (theme =? "dark"); reflexivity.
  - intros Hne. destruct theme; [contradiction|reflexivity].
  - intros key Hkey. apply String.eqb_neq in Hkey. unfold getItem, setItem.
    rewrite Hkey. reflexivity.
Qed.

(** * The extras on the backend in memory *)

(** X12, on a selection of an image, a PDF, an image, a file that does not
    decode and an image: the first two images are uploaded, the last is
    not. *)
Lemma batch_prepends_newest_first_witness :
  let files := [Fake.image "A"; Fake.document "acta.pdf"; Fake.image "B";
                Fake.undecodable "roto.png"; Fake.image "C"] in
  let after := handleFileChange (Some files) onCampo (Fake.world Fake.empty) in
  let records := uploadedRecords "campo" (filter isImage files) (Fake.world Fake.empty) in
  truthy (activeCategory onCampo) = Some "campo" /\
  records = [recordA; recordB] /\
  imagesOf "campo" (fst after) = [recordB; recordA] /\
  error (fst after) = Some "Failed to load image" /\
  List.length (filter isImage files) = 4%nat /\
  Forall2 (fun cat cat' =>
             if CategoryData.id cat =? "campo"
             then cat' = CategoryData.with_images
                           (rev records ++ CategoryData.images cat)%list cat
             else cat' = cat)
          (categories onCampo) (categories (fst after)) /\
  isUploading (fst after) = false.
Proof.
  split; [reflexivity|]. split; [reflexivity|]. split; [reflexivity|].
  split; [reflexivity|]. split; [reflexivity|].
  destruct (batch_prepends_newest_first "campo"
              [Fake.image "A"; Fake.document "acta.pdf"; Fake.image "B";
               Fake.undecodable "roto.png"; Fake.image "C"]
              onCampo
              (fst (handleFileChange
                      (Some [Fake.image "A"; Fake.document "acta.pdf"; Fake.image "B";
                             Fake.undecodable "roto.png"; Fake.image "C"])
                      onCampo (Fake.world Fake.empty)))
              (Fake.world Fake.empty)
              (snd (handleFileChange
                      (Some [Fake.image "A"; Fake.document "acta.pdf"; Fake.image "B";
                             Fake.undecodable "roto.png"; Fake.image "C"])
                      onCampo (Fake.world Fake.empty)))
              eq_refl (surjective_pairing _))
    as (Hcats & Hup & _).
  split; [exact Hcats|exact Hup].
Defined.

(** X14, on file A uploaded into the empty "campo" and deleted again. *)
Lemma upload_then_delete_witness :
  let uploaded := handleFileChange (Some [Fake.image "A"]) onCampo (Fake.world Fake.empty) in
  let deleted := handleDeleteImage "campo" recordA (fst uploaded) (snd uploaded) in
  (fst (uploadImage "campo" (Fake.image "A") (Fake.world Fake.empty)) = Ok recordA /\
   freshIn "campo" (ImageRecord.id recordA) (categories onCampo) = true) /\
  imagesOf "campo" (fst uploaded) = [recordA] /\
  categories (fst deleted) = categories onCampo.
Proof.
  split; [split; reflexivity|]. split; [reflexivity|].
  exact (upload_then_delete "campo" (Fake.image "A") recordA onCampo
           (Fake.world Fake.empty)
           (snd (uploadImage "campo" (Fake.image "A") (Fake.world Fake.empty)))
           eq_refl eq_refl eq_refl eq_refl eq_refl).
Defined.

(** X15, on "campo" holding [B, A]: deleting A leaves [B], and deleting A
    again leaves [B]. *)
Lemma delete_is_complete_witness :
  let once := handleDeleteImage "campo" recordA (fst afterAB) (snd afterAB) in
  let twice := handleDeleteImage "campo" recordA (fst once) (snd once) in
  fst (deleteImage recordA (snd afterAB)) = Ok tt /\
  imagesOf "campo" (fst afterAB) = [recordB; recordA] /\
  imagesOf "campo" (fst once) = [recordB] /\
  imagesOf "campo" (fst twice) = [recordB] /\
  Forall (fun img => ImageRecord.id img <> ImageRecord.id recordA)
         (imagesOf "campo" (fst once)).
Proof.
  split; [reflexivity|]. split; [reflexivity|]. split; [reflexivity|].
  split; [reflexivity|].
  exact (proj1 (proj2 (delete_is_complete "campo" recordA (fst afterAB) (snd afterAB)
                         eq_refl))).
Defined.

(** X16, on a table that holds A and B of "campo" while the state still
    shows an image of its own in "anuncios". *)
Lemma load_success_hydrates_witness :
  let stale := setCategories (prependImage "anuncios" recordA) appInit in
  let after := load false stale (snd afterAB) in
  Forall (fun p : nat * result (list ImageRecord.t) => exists data, snd p = Ok data)
         (fst (fetchAll (map CategoryData.id CATEGORIES) (snd afterAB))) /\
  imagesOf "anuncios" stale = [recordA] /\
  map (fun c => imagesOf c (fst after)) (map CategoryData.id CATEGORIES)
    = [[recordB; recordA]; []; []; []] /\
  skeleton (categories (fst after)) = CATEGORIES /\
  isLoading (fst after) = false.
Proof.
  assert (Hall : Forall (fun p : nat * result (list ImageRecord.t) =>
                           exists data, snd p = Ok data)
                   (fst (fetchAll (map CategoryData.id CATEGORIES) (snd afterAB))))
    by (repeat constructor; eexists; reflexivity).
  split; [exact Hall|]. split; [reflexivity|]. split; [reflexivity|].
  pose proof (load_success_hydrates
                (setCategories (prependImage "anuncios" recordA) appInit)
                (snd afterAB) Hall) as Hload.
  destruct (load false _ (snd afterAB)) as [st' w'] eqn:Hrun in Hload.
  destruct Hload as (Hskel & _ & Hloading & _).
  vm_compute in Hrun. injection Hrun as <- <-.
  split; [exact Hskel|exact Hloading].
Defined.

(** X18, on a run of the application: the load, the page of "campo", two
    selections, a delete that the storage refuses and one that succeeds. *)
Lemma handlers_keep_categories_witness :
  let evs := [Loaded false; PageShown (Some "campo");
              FilesSelected (Some [Fake.image "A"; Fake.image "B"]);
              FilesSelected (Some [Fake.undecodable "roto.png"]);
              DeleteClicked "campo" recordA; PageShown (Some "limpieza")] in
  let st' := fst (appRun evs (appInit, Fake.world Fake.empty)) in
  settled appInit /\
  imagesOf "campo" st' = [recordB] /\
  error st' = Some "Failed to load image" /\
  settled st' /\
  option_map CategoryData.name (currentCategory st') = Some "Limpieza".
Proof.
  assert (Hinit : settled appInit) by (split; reflexivity).
  split; [exact Hinit|]. split; [reflexivity|]. split; [reflexivity|].
  split; [|reflexivity].
  exact (proj1 (handlers_keep_categories
                  [Loaded false; PageShown (Some "campo");
                   FilesSelected (Some [Fake.image "A"; Fake.image "B"]);
                   FilesSelected (Some [Fake.undecodable "roto.png"]);
                   DeleteClicked "campo" recordA; PageShown (Some "limpieza")]
                  (appInit, Fake.world Fake.empty) Hinit)).
Defined.
